(** * bird-optimizer: the recommendation pipeline of [app/page.tsx]

    A shallow embedding of the scoring pipeline of the eBird Life List
    Optimizer: the species tally of [fetchHotspotSpecies],
    [processAllHotspots], the engine [calculateRecommendations] and the
    haversine helper [calculateDistance].  The earlier revision of the page
    kept in the repository has the same pipeline with other region
    constants; the engine is therefore parameterised by the region.

    Numbers.  The development has two layers.  The first models numbers by
    exact real arithmetic extended with the IEEE special values the engine
    can produce ([Infinity], [-Infinity], [NaN]); it carries the properties
    that rounding cannot change: the shape of the pipeline, what a call
    reads and writes, the order of a ranking, the distance formula and its
    value on the fixture.  There the distance helper is modelled directly on
    [R], as it neither divides nor takes the square root of a value outside
    [0, 1] (lemma [haversine_a_range]).

    The second layer, module [Js], is the program on binary64 numbers
    (the primitive floats, with the IEEE 754 specification of their
    operations): sums and quotients round, [toFixed] rounds the exact value
    of the binary64 number it is applied to, and a distance can be [NaN].
    [Math.sin], [Math.cos] and [Math.atan2], whose accuracy ECMA-262 leaves
    to the implementation, are a parameter ([Js.MathLibrary]).  In that
    layer objects are plain objects: a read finds the properties inherited
    from [Object.prototype], [Object.entries] lists array-index keys first,
    and a call returns or throws ([Js.Completion]).

    Strings.  The fields a recommendation stores as [toFixed] strings are
    kept symbolic ([NumString]); [parseFloat] reads them back.

    Arrays.  The engine is given twice: on lists ([recommend], [rank]) and
    with arrays as heap objects ([recommend_on_heap], [rank_on_heap]), where
    the in-place sorts are visible; lemma [rank_on_heap_spec] relates the
    two. *)

From Stdlib Require Import Reals Machin Lra Lia ZArith List Permutation Sorted.
From Stdlib Require Floats.
From stdpp Require Import gmap strings list.

(** ** JavaScript numbers *)

Inductive number : Type :=
| Fin (x : R)
| PosInfinity
| NegInfinity
| NaN.

Definition num_of_nat (n : nat) : number := Fin (INR n).

Definition num_neg (x : number) : number :=
  match x with
  | Fin a => Fin (- a)
  | PosInfinity => NegInfinity
  | NegInfinity => PosInfinity
  | NaN => NaN
  end.

(** [x + y] *)
Definition num_add (x y : number) : number :=
  match x, y with
  | NaN, _ | _, NaN => NaN
  | Fin a, Fin b => Fin (a + b)
  | PosInfinity, NegInfinity | NegInfinity, PosInfinity => NaN
  | PosInfinity, _ | _, PosInfinity => PosInfinity
  | NegInfinity, _ | _, NegInfinity => NegInfinity
  end.

(** [x - y] *)
Definition num_sub (x y : number) : number := num_add x (num_neg y).

(** Comparisons of reals as booleans. *)
Definition Rltb (a b : R) : bool := if Rlt_dec a b then true else false.
Definition Rleb (a b : R) : bool := if Rle_dec a b then true else false.
Definition Reqb (a b : R) : bool := if Req_dec_T a b then true else false.

(** The infinite result of a product or quotient: positive when the
    operands have the same sign. *)
Definition signed_infinity (same_sign : bool) : number :=
  if same_sign then PosInfinity else NegInfinity.

(** [x * y] *)
Definition num_mul (x y : number) : number :=
  match x, y with
  | NaN, _ | _, NaN => NaN
  | Fin a, Fin b => Fin (a * b)
  | Fin a, PosInfinity | PosInfinity, Fin a =>
      if Reqb a 0 then NaN else signed_infinity (Rltb 0 a)
  | Fin a, NegInfinity | NegInfinity, Fin a =>
      if Reqb a 0 then NaN else signed_infinity (Rltb a 0)
  | PosInfinity, PosInfinity | NegInfinity, NegInfinity => PosInfinity
  | PosInfinity, NegInfinity | NegInfinity, PosInfinity => NegInfinity
  end.

(** [x / y].  A finite zero stands for [+0]: the only divisors the engine
    uses are an array length and the square root of a positive distance. *)
Definition num_div (x y : number) : number :=
  match x, y with
  | NaN, _ | _, NaN => NaN
  | Fin a, Fin b =>
      if Reqb b 0 then
        if Reqb a 0 then NaN else signed_infinity (Rltb 0 a)
      else Fin (a / b)
  | Fin _, (PosInfinity | NegInfinity) => Fin 0
  | (PosInfinity | NegInfinity), (PosInfinity | NegInfinity) => NaN
  | PosInfinity, Fin b => signed_infinity (Rleb 0 b)
  | NegInfinity, Fin b => signed_infinity (Rltb b 0)
  end.

(** [Math.sqrt] *)
Definition Math_sqrt (x : number) : number :=
  match x with
  | Fin a => if Rltb a 0 then NaN else Fin (sqrt a)
  | PosInfinity => PosInfinity
  | NegInfinity | NaN => NaN
  end.

(** [x > y]; any comparison with [NaN] is false. *)
Definition num_gt (x y : number) : bool :=
  match x, y with
  | NaN, _ | _, NaN => false
  | Fin a, Fin b => Rltb b a
  | PosInfinity, PosInfinity => false
  | PosInfinity, _ => true
  | _, PosInfinity => false
  | NegInfinity, _ => false
  | Fin _, NegInfinity => true
  end.

(** [x >= y] *)
Definition num_ge (x y : number) : bool :=
  match x, y with
  | NaN, _ | _, NaN => false
  | Fin a, Fin b => Rleb b a
  | PosInfinity, _ => true
  | _, NegInfinity => true
  | _, PosInfinity => false
  | NegInfinity, _ => false
  end.

(** The strings [Number.prototype.toFixed] returns, kept symbolic. *)
Inductive NumString : Type :=
| Decimal (fractionDigits : nat) (n : Z)
    (* the integer [n] written with a point before its last
       [fractionDigits] digits: [Decimal 2 250] is "2.50" *)
| Shortest (x : R)
    (* ToString(x), used when |x| >= 10^21 *)
| StrInfinity
| StrNegInfinity
| StrNaN.

(** The integer nearest to a non-negative [y], the larger one on a tie. *)
Definition nearest_integer (y : R) : Z := Zfloor (y + / 2).

(** [x.toFixed(f)] (ECMA-262, Number.prototype.toFixed). *)
Definition toFixed (x : number) (f : nat) : NumString :=
  match x with
  | NaN => StrNaN
  | PosInfinity => StrInfinity
  | NegInfinity => StrNegInfinity
  | Fin r =>
      if Rleb (10 ^ 21) (Rabs r) then Shortest r
      else if Rltb r 0 then Decimal f (- nearest_integer (- r * 10 ^ f))
      else Decimal f (nearest_integer (r * 10 ^ f))
  end.

(** [parseFloat(s)] on the strings above (also what [ToNumber] gives when
    such a string meets the [-] operator). *)
Definition parseFloat (s : NumString) : number :=
  match s with
  | Decimal f n => Fin (IZR n / 10 ^ f)
  | Shortest x => Fin x
  | StrInfinity => PosInfinity
  | StrNegInfinity => NegInfinity
  | StrNaN => NaN
  end.

(** ** Geospatial distance helper *)

Definition toRad (deg : R) : R := (deg * (PI / 180))%R.

(** [Math.atan2(y, x)] on finite arguments. *)
Definition Math_atan2 (y x : R) : R :=
  if Rltb 0 x then atan (y / x)
  else if Rltb x 0 then
    if Rleb 0 y then (atan (y / x) + PI)%R else (atan (y / x) - PI)%R
  else if Rltb 0 y then (PI / 2)%R
  else if Rltb y 0 then (- (PI / 2))%R
  else 0%R.

(** The quantity [a] of [calculateDistance]. *)
Definition haversine_a (lat1 lon1 lat2 lon2 : R) : R :=
  let dLat := toRad (lat2 - lat1) in
  let dLon := toRad (lon2 - lon1) in
  (sin (dLat / 2) * sin (dLat / 2) +
   cos (toRad lat1) * cos (toRad lat2) *
   sin (dLon / 2) * sin (dLon / 2))%R.

Definition calculateDistance (lat1 lon1 lat2 lon2 : R) : R :=
  let R := 6371%R in
  let a := haversine_a lat1 lon1 lat2 lon2 in
  let c := (2 * Math_atan2 (sqrt a) (sqrt (1 - a)))%R in
  (R * c)%R.

(** ** Data model *)

(** A hotspot as the eBird hotspot endpoint returns it (the fields the
    pipeline reads). *)
Record Hotspot : Type := {
  locId : string;
  locName : string;
  lat : R;
  lng : R
}.

(** One record of the recent-observations endpoint. *)
Record Observation : Type := {
  speciesCode : string;
  comName : string;
  sciName : string;
  obsDt : string
}.

Record SpeciesInfo : Type := {
  commonName : string;
  scientificName : string;
  count : nat;
  lastSeen : string
}.

(** The [speciesFrequency] object: its own properties in the order
    [Object.entries] lists them, which for species codes (never array
    indices) is the order of insertion. *)
Definition SpeciesFrequency : Type := list (string * SpeciesInfo).

Record HotspotData : Type := {
  hotspotId : string;
  species : SpeciesFrequency;
  totalChecklists : nat
}.

(** The region constant; its fields [name], [lat] and [lng] are renamed, the
    names being taken by the hotspot and top-species records. *)
Record Region : Type := {
  regionName : string;
  centerLat : R;
  centerLng : R;
  radius : R
}.

(** [CHICAGO_WEST] of app/page.tsx. *)
Definition CHICAGO_WEST : Region := {|
  regionName := "Chicago West Side";
  centerLat := 4194 / 100;
  centerLng := - (8767 / 100);
  radius := 20
|}.

(** [CHICAGO_WEST] of the earlier revision of the page. *)
Definition CHICAGO_WEST_prototype : Region := {|
  regionName := "Chicago West Side";
  centerLat := 4188 / 100;
  centerLng := - (8775 / 100);
  radius := 25
|}.

Record TopSpecies : Type := {
  name : string;
  probability : NumString
}.

Record Recommendation : Type := {
  hotspot : Hotspot;
  newSpeciesCount : nat;
  expectedNewSpecies : NumString;
  distance : NumString;
  score : NumString;
  topNewSpecies : list TopSpecies
}.

Inductive Stage : Type :=
| StageConfig
| StageHotspots
| StageSpecies
| StageRecommendations.

(** The component state the pipeline reads and writes. *)
Record State : Type := {
  stage : Stage;
  hotspots : list Hotspot;
  speciesData : gmap string HotspotData;
  userLifeList : gset string;
  recommendations : list Recommendation
}.

(** ** Objects keyed by species code *)

Fixpoint obj_get (o : SpeciesFrequency) (key : string) : option SpeciesInfo :=
  match o with
  | [] => None
  | (k, v) :: rest => if String.eqb k key then Some v else obj_get rest key
  end.

(** [o[key] = v]: an existing property keeps its place, a new one goes
    last. *)
Fixpoint obj_set (o : SpeciesFrequency) (key : string) (v : SpeciesInfo)
  : SpeciesFrequency :=
  match o with
  | [] => [(key, v)]
  | (k, w) :: rest =>
      if String.eqb k key then (k, v) :: rest else (k, w) :: obj_set rest key v
  end.

(** ** Array.prototype.sort

    A stable sort (ECMAScript 2019): an element moves behind the elements
    the comparator puts before it and stays in front of the others; a
    comparator result of [NaN] counts as [+0].  For a consistent comparator
    every conforming implementation returns this list. *)
Section ArraySort.
Context {A : Type} (comparefn : A -> A -> number).

(** [after x y]: the comparator result is positive, so [x] goes behind
    [y]. *)
Definition after (x y : A) : bool := num_gt (comparefn x y) (Fin 0).

Fixpoint sort_insert (x : A) (sorted : list A) : list A :=
  match sorted with
  | [] => [x]
  | y :: rest =>
      if after x y then y :: sort_insert x rest else x :: y :: rest
  end.

Definition Array_sort (l : list A) : list A := foldr sort_insert [] l.
End ArraySort.

(** ** Step 2: species tally of [fetchHotspotSpecies] *)

(** The body of the [forEach] callback: create the entry with a count of 0
    when the code has none, then increment the count.  (The last branch is
    not reached: the entry exists by then.) *)
Definition tally (speciesFrequency : SpeciesFrequency) (obs : Observation)
  : SpeciesFrequency :=
  let speciesFrequency :=
    match obj_get speciesFrequency (speciesCode obs) with
    | None =>
        obj_set speciesFrequency (speciesCode obs)
          {| commonName := comName obs;
             scientificName := sciName obs;
             count := 0;
             lastSeen := obsDt obs |}
    | Some _ => speciesFrequency
    end in
  match obj_get speciesFrequency (speciesCode obs) with
  | Some d =>
      obj_set speciesFrequency (speciesCode obs)
        {| commonName := commonName d;
           scientificName := scientificName d;
           count := S (count d);
           lastSeen := lastSeen d |}
  | None => speciesFrequency
  end.

(** [fetchHotspotSpecies], given what the request produced: [Some] list of
    observations, or [None] when the request failed (the [catch] branch). *)
Definition fetchHotspotSpecies (hotspotId : string)
    (response : option (list Observation)) : HotspotData :=
  match response with
  | Some observations =>
      {| hotspotId := hotspotId;
         species := foldl tally [] observations;
         totalChecklists := length observations |}
  | None => {| hotspotId := hotspotId; species := []; totalChecklists := 0 |}
  end.

(** ** Step 3: [processAllHotspots] *)

Definition processAllHotspots
    (api : string -> option (list Observation)) (s : State) : State :=
  let results :=
    foldl (fun results hotspot =>
             <[locId hotspot := fetchHotspotSpecies (locId hotspot) (api (locId hotspot))]> results)
          (∅ : gmap string HotspotData) (hotspots s) in
  {| stage := StageSpecies;
     hotspots := hotspots s;
     speciesData := results;
     userLifeList := userLifeList s;
     recommendations := recommendations s |}.

(** ** Step 4: [calculateRecommendations] *)

Section Engine.
Variable region : Region.

(** Entries of the species table whose code is not on the life list. *)
Definition newSpeciesOf (userLifeList : gset string) (hotspotData : HotspotData)
  : list (string * SpeciesInfo) :=
  List.filter (fun entry => negb (bool_decide (entry.1 ∈ userLifeList)))
              (species hotspotData).

Definition probabilityOf (hotspotData : HotspotData) (data : SpeciesInfo) : number :=
  num_div (num_of_nat (count data)) (num_of_nat (totalChecklists hotspotData)).

Definition expectedNewSpeciesOf (hotspotData : HotspotData)
    (newSpecies : list (string * SpeciesInfo)) : number :=
  foldl (fun sum entry => num_add sum (probabilityOf hotspotData entry.2))
        (Fin 0) newSpecies.

Definition distanceOf (hotspot : Hotspot) : number :=
  Fin (calculateDistance (centerLat region) (centerLng region)
                         (lat hotspot) (lng hotspot)).

Definition scoreOf (distance expectedNewSpecies : number) : number :=
  if num_gt distance (Fin 0)
  then num_div expectedNewSpecies (Math_sqrt distance)
  else expectedNewSpecies.

(** Comparator of the top-species sort, [(a, b) => b[1].count - a[1].count]. *)
Definition byCountDesc (a b : string * SpeciesInfo) : number :=
  num_sub (num_of_nat (count b.2)) (num_of_nat (count a.2)).

(** The callback of the last [map]: [([_, data]) => ({name, probability})]. *)
Definition topSpeciesOf (hotspotData : HotspotData)
    (entry : string * SpeciesInfo) : TopSpecies :=
  let data := entry.2 in
  {| name := commonName data;
     probability :=
       toFixed (num_mul (probabilityOf hotspotData data) (Fin 100)) 0 |}.

(** The callback of [hotspots.map]: [None] is the [null] it returns when
    the hotspot has no entry in [speciesData]. *)
Definition recommend (speciesData : gmap string HotspotData)
    (userLifeList : gset string) (hotspot : Hotspot) : option Recommendation :=
  match speciesData !! locId hotspot with
  | None => None
  | Some hotspotData =>
      let newSpecies := newSpeciesOf userLifeList hotspotData in
      let expectedNewSpecies := expectedNewSpeciesOf hotspotData newSpecies in
      let distance := distanceOf hotspot in
      let score := scoreOf distance expectedNewSpecies in
      Some {| hotspot := hotspot;
              newSpeciesCount := length newSpecies;
              expectedNewSpecies := toFixed expectedNewSpecies 1;
              distance := toFixed distance 1;
              score := toFixed score 2;
              topNewSpecies :=
                map (topSpeciesOf hotspotData)
                    (take 5 (Array_sort byCountDesc newSpecies)) |}
  end.

(** Comparator of the final ranking,
    [(a, b) => parseFloat(b.score) - parseFloat(a.score)]; the earlier
    revision writes [b.score - a.score], which converts the two strings to
    the same numbers. *)
Definition byScoreDesc (a b : Recommendation) : number :=
  num_sub (parseFloat (score b)) (parseFloat (score a)).

(** [hotspots.map(...).filter(r => r !== null)], then the in-place sort
    of that fresh array. *)
Definition rank (speciesData : gmap string HotspotData)
    (userLifeList : gset string) (hotspots : list Hotspot) : list Recommendation :=
  let recs := omap (recommend speciesData userLifeList) hotspots in
  Array_sort byScoreDesc recs.

Definition calculateRecommendations (s : State) : State :=
  let recs := rank (speciesData s) (userLifeList s) (hotspots s) in
  {| stage := StageRecommendations;
     hotspots := hotspots s;
     speciesData := speciesData s;
     userLifeList := userLifeList s;
     recommendations := recs |}.
End Engine.


(** ** Arrays as heap objects

    [map], [filter], [slice] and [Object.entries] return a new array;
    [sort] reorders the array it is called on.  The heap holds the arrays,
    an address being an index; objects, the life-list [Set] and numbers are
    values, since [calculateRecommendations] only reads them.  Reading an
    address as an array of another kind gives the empty list; the engine
    never does. *)

Inductive JSArray : Type :=
| HotspotArray (elements : list Hotspot)
| EntryArray (elements : list (string * SpeciesInfo))
| NullableArray (elements : list (option Recommendation))
| RecommendationArray (elements : list Recommendation)
| TopArray (elements : list TopSpecies).

Definition Heap : Type := list JSArray.
Definition Ref : Type := nat.

(** Computations on the heap. *)
Definition Run (A : Type) : Type := Heap -> A * Heap.

#[global] Instance Run_ret : MRet Run := fun A x heap => (x, heap).
#[global] Instance Run_bind : MBind Run :=
  fun A B k m heap => let (x, heap') := m heap in k x heap'.

Definition new_array (a : JSArray) : Run Ref :=
  fun heap => (length heap, heap ++ [a]).

Definition set_array (r : Ref) (a : JSArray) : Run unit :=
  fun heap => (tt, <[r := a]> heap).

Definition hotspots_at (r : Ref) : Run (list Hotspot) :=
  fun heap => (match heap !! r with Some (HotspotArray l) => l | _ => [] end, heap).

Definition entries_at (r : Ref) : Run (list (string * SpeciesInfo)) :=
  fun heap => (match heap !! r with Some (EntryArray l) => l | _ => [] end, heap).

Definition nullables_at (r : Ref) : Run (list (option Recommendation)) :=
  fun heap => (match heap !! r with Some (NullableArray l) => l | _ => [] end, heap).

Definition recommendations_at (r : Ref) : Run (list Recommendation) :=
  fun heap => (match heap !! r with Some (RecommendationArray l) => l | _ => [] end, heap).

Definition tops_at (r : Ref) : Run (list TopSpecies) :=
  fun heap => (match heap !! r with Some (TopArray l) => l | _ => [] end, heap).

(** The calls of a [map] callback, in order. *)
Fixpoint for_each {A B : Type} (callback : A -> Run B) (l : list A) : Run (list B) :=
  match l with
  | [] => mret []
  | x :: rest =>
      y ← callback x;
      ys ← for_each callback rest;
      mret (y :: ys)
  end.

Section HeapEngine.
Variable region : Region.

Definition recommend_on_heap (speciesData : gmap string HotspotData)
    (userLifeList : gset string) (hotspot : Hotspot)
  : Run (option Recommendation) :=
  match speciesData !! locId hotspot with
  | None => mret None
  | Some hotspotData =>
      (* Object.entries(hotspotData.species).filter(...) *)
      entries ← new_array (EntryArray (species hotspotData));
      elements ← entries_at entries;
      newSpecies ← new_array
        (EntryArray
           (List.filter (fun entry => negb (bool_decide (entry.1 ∈ userLifeList)))
                        elements));
      elements ← entries_at newSpecies;
      let expectedNewSpecies := expectedNewSpeciesOf hotspotData elements in
      let distance := distanceOf region hotspot in
      let score := scoreOf distance expectedNewSpecies in
      let newSpeciesCount := length elements in
      (* newSpecies.sort(...) reorders newSpecies itself *)
      _ ← set_array newSpecies (EntryArray (Array_sort byCountDesc elements));
      elements ← entries_at newSpecies;
      (* .slice(0, 5).map(...) *)
      top ← new_array (EntryArray (take 5 elements));
      elements ← entries_at top;
      mapped ← new_array (TopArray (map (topSpeciesOf hotspotData) elements));
      topNewSpecies ← tops_at mapped;
      mret (Some {| hotspot := hotspot;
                    newSpeciesCount := newSpeciesCount;
                    expectedNewSpecies := toFixed expectedNewSpecies 1;
                    distance := toFixed distance 1;
                    score := toFixed score 2;
                    topNewSpecies := topNewSpecies |})
  end.

(** [calculateRecommendations] with [hotspots] an array of the heap; the
    result is the array handed to [setRecommendations]. *)
Definition rank_on_heap (hotspots : Ref) (speciesData : gmap string HotspotData)
    (userLifeList : gset string) : Run Ref :=
  elements ← hotspots_at hotspots;
  results ← for_each (recommend_on_heap speciesData userLifeList) elements;
  mapped ← new_array (NullableArray results);
  elements ← nullables_at mapped;
  recs ← new_array (RecommendationArray (omap (fun r => r) elements));
  elements ← recommendations_at recs;
  _ ← set_array recs (RecommendationArray (Array_sort byScoreDesc elements));
  mret recs.
End HeapEngine.


(** ** Auxiliary notions used in the statements *)

Definition is_nan (x : number) : bool :=
  match x with NaN => true | _ => false end.

(** The count recorded for a species code (0 when the table has no such
    property). *)
Definition count_of (o : SpeciesFrequency) (code : string) : nat :=
  match obj_get o code with
  | Some d => count d
  | None => 0
  end.

(** Sum of the counts of a list of entries. *)
Definition total_count (entries : list (string * SpeciesInfo)) : nat :=
  sum_list (map (fun entry => count entry.2) entries).

(** Number of observation records bearing a species code. *)
Definition occurrences (code : string) (observations : list Observation) : nat :=
  length (List.filter (fun obs => String.eqb (speciesCode obs) code) observations).

(** Sum of [count / total] over a list of entries, in exact arithmetic. *)
Definition rate_sum (total : nat) (entries : list (string * SpeciesInfo)) : R :=
  foldr (fun entry acc => (INR (count entry.2) / INR total + acc)%R) 0%R entries.

(** Every entry of a species table records at least one observation. *)
Definition counted (hotspotData : HotspotData) : Prop :=
  Forall (fun entry => 1 <= count entry.2) (species hotspotData).

(** Sum of a list of numbers, from 0. *)
Definition num_sum (l : list number) : number := foldr num_add (Fin 0) l.

(** The unrounded score of a hotspot with summary [hotspotData]: the value
    of the local [score] before [toFixed]. *)
Definition rawScore (region : Region) (userLifeList : gset string)
    (hotspot : Hotspot) (hotspotData : HotspotData) : number :=
  scoreOf (distanceOf region hotspot)
          (expectedNewSpeciesOf hotspotData (newSpeciesOf userLifeList hotspotData)).

(** A non-negative finite number or [Infinity]. *)
Definition nonneg_or_infinite (x : number) : Prop :=
  (exists a, x = Fin a /\ (0 <= a)%R) \/ x = PosInfinity.

(** ** Sample data *)

Definition info (common : string) (n : nat) : SpeciesInfo :=
  {| commonName := common; scientificName := ""; count := n; lastSeen := "" |}.

Definition summary (id : string) (entries : SpeciesFrequency) (total : nat)
  : HotspotData :=
  {| hotspotId := id; species := entries; totalChecklists := total |}.

(** A hotspot located at the centre of [CHICAGO_WEST]. *)
Definition at_center (id : string) : Hotspot :=
  {| locId := id; locName := id;
     lat := centerLat CHICAGO_WEST; lng := centerLng CHICAGO_WEST |}.

(** A summary with no checklist but one species entry. *)
Definition zero_data : gmap string HotspotData :=
  {[ "L0" := summary "L0" [("blujay", info "Blue Jay" 3)] 0 ]}.

(** The new-species partition sample of the specification. *)
Definition partition_data : gmap string HotspotData :=
  {[ "L1" := summary "L1" [("norcad", info "Northern Cardinal" 5);
                           ("blujay", info "Blue Jay" 3)] 10 ]}.

(** Two hotspots with expected values 1.0 and 2.5. *)
Definition ranking_data : gmap string HotspotData :=
  <[ "A" := summary "A" [("blujay", info "Blue Jay" 1)] 1 ]>
  {[ "B" := summary "B" [("blujay", info "Blue Jay" 3);
                         ("norcad", info "Northern Cardinal" 2)] 2 ]}.

(** Two summaries as the tally builds them, of 13 and 16 observations;
    with the cardinal on the life list the expected values are 4/13 and
    5/16. *)
Definition close_data : gmap string HotspotData :=
  <[ "A" := summary "A" [("norcad", info "Northern Cardinal" 9);
                         ("blujay", info "Blue Jay" 4)] 13 ]>
  {[ "B" := summary "B" [("norcad", info "Northern Cardinal" 11);
                         ("blujay", info "Blue Jay" 5)] 16 ]}.

(** A summary with no checklist and a species entry of count 0, and one
    of a single observation. *)
Definition nan_data : gmap string HotspotData :=
  <[ "Z" := summary "Z" [("blujay", info "Blue Jay" 0)] 0 ]>
  {[ "A" := summary "A" [("blujay", info "Blue Jay" 1)] 1 ]}.

(** Seven species with distinct counts. *)
Definition seven_species : SpeciesFrequency :=
  [("amerob", info "American Robin" 3);
   ("norcad", info "Northern Cardinal" 7);
   ("bkcchi", info "Black-capped Chickadee" 1);
   ("amecro", info "American Crow" 6);
   ("blujay", info "Blue Jay" 2);
   ("mourdo", info "Mourning Dove" 5);
   ("amegfi", info "American Goldfinch" 4)].

Definition seven_data : gmap string HotspotData :=
  {[ "L7" := summary "L7" seven_species 28 ]}.



(** ** The rest of the page: hotspot fetch and life-list editing *)

(** The component state around the pipeline state: the API key field, the
    busy flag and the error banner. *)
Record Component : Type := {
  apiKey : string;
  pipeline : State;
  loading : bool;
  error : option string
}.

(** What the hotspot request produced: an exception (with its message), a
    response that is not [ok], or the parsed list of hotspots. *)
Inductive HotspotsResponse : Type :=
| RequestThrew (message : string)
| ResponseNotOk
| ResponseOk (hotspots : list Hotspot).

(** Comparator of the hotspot sort, [(a, b) => a.distance - b.distance]; the
    [distance] property the page adds to each hotspot is
    [calculateDistance] from the centre of the region, recomputed here. *)
Definition byDistanceAsc (region : Region) (a b : Hotspot) : number :=
  num_sub (distanceOf region a) (distanceOf region b).

(** Step 1 of app/page.tsx, given what the request produced. *)
Definition fetchHotspots (region : Region) (response : HotspotsResponse)
    (c : Component) : Component :=
  if String.eqb (apiKey c) "" then
    {| apiKey := apiKey c; pipeline := pipeline c; loading := loading c;
       error := Some "Please enter your eBird API key" |}
  else
    match response with
    | ResponseOk hotspots =>
        let hotspotsWithDistance := Array_sort (byDistanceAsc region) hotspots in
        {| apiKey := apiKey c;
           pipeline :=
             {| stage := StageHotspots;
                hotspots := hotspotsWithDistance;
                speciesData := speciesData (pipeline c);
                userLifeList := userLifeList (pipeline c);
                recommendations := recommendations (pipeline c) |};
           loading := false;
           error := None |}
    | ResponseNotOk =>
        {| apiKey := apiKey c; pipeline := pipeline c; loading := false;
           error := Some "Failed to fetch hotspots. Please check your API key." |}
    | RequestThrew message =>
        {| apiKey := apiKey c; pipeline := pipeline c; loading := false;
           error := Some message |}
    end.

(** Step 1 of the earlier revision: no key check, the hotspots of the whole
    state filtered to the radius and cut to twenty. *)
Definition fetchHotspots_prototype (region : Region) (response : HotspotsResponse)
    (c : Component) : Component :=
  match response with
  | ResponseOk allHotspots =>
      let westSideHotspots :=
        take 20
          (List.filter
             (fun h => num_ge (Fin (radius region)) (distanceOf region h))
             allHotspots) in
      {| apiKey := apiKey c;
         pipeline :=
           {| stage := StageHotspots;
              hotspots := westSideHotspots;
              speciesData := speciesData (pipeline c);
              userLifeList := userLifeList (pipeline c);
              recommendations := recommendations (pipeline c) |};
         loading := false;
         error := None |}
  | ResponseNotOk =>
      {| apiKey := apiKey c; pipeline := pipeline c; loading := false;
         error := Some "Failed to fetch hotspots" |}
  | RequestThrew message =>
      {| apiKey := apiKey c; pipeline := pipeline c; loading := false;
         error := Some message |}
  end.

(** [toggleBirdInLifeList]: a copy of the set with the code removed when it
    was in, added when it was not. *)
Definition toggleBirdInLifeList (code : string) (userLifeList : gset string)
  : gset string :=
  let newList := userLifeList in
  if bool_decide (code ∈ newList) then newList ∖ {[ code ]}
  else newList ∪ {[ code ]}.

(** The species codes of a list of records in the order of their first
    occurrence. *)
Definition first_seen (codes : list string) : list string :=
  foldl (fun seen code => if bool_decide (code ∈ seen) then seen else seen ++ [code])
        [] codes.

(** The life list after the birds of [clicks] were clicked in the species
    stage, one after the other: each click calls [toggleBirdInLifeList] on
    the life list the click before left. *)
Definition clickBirds (clicks : list string) (userLifeList : gset string)
  : gset string :=
  foldl (fun userLifeList code => toggleBirdInLifeList code userLifeList)
        userLifeList clicks.

(** The cards of the recommendations stage,
    [recommendations.slice(0, 10)]. *)
Definition shownRecommendations (s : State) : list Recommendation :=
  take 10 (recommendations s).
(** * The page as JavaScript evaluates it

    The definitions above read the page in exact arithmetic and with
    species tables and summaries keyed by ordinary strings.  Module [Js]
    gives the same functions with what JavaScript does beneath: numbers are
    IEEE binary64 values (the kernel's [float], with [NaN], the infinities
    and the two zeros), [toFixed] rounds the binary64 value it is given,
    property reads on a plain object also find what the object inherits,
    [Object.entries] lists integer-like keys first, and a call can throw.

    [Math.sin], [Math.cos] and [Math.atan2] are implementation-approximated
    (ECMA-262, 21.3.2): the distance helper takes them from a
    [MathLibrary].  [Math.sqrt] and the operators [+ - * /] are the
    correctly rounded operations of IEEE 754. *)
Module Js.
Import Floats.

(** ** Numbers *)

(** The number an integer count or length is: the nearest binary64 value,
    the integer itself below 2^53. *)
Definition num_of_nat (n : nat) : float :=
  SF2Prim (binary_normalize prec emax (Z.of_nat n) 0 false).

(** [Math.PI] *)
Definition Math_PI : float := 0x1.921fb54442d18p+1%float.

(** The value of a finite number as a real. *)
Definition value (x : float) : R :=
  match Prim2SF x with
  | S754_finite s m e =>
      ((if s then -1 else 1) * IZR (Zpos m) * powerRZ 2 e)%R
  | _ => 0%R
  end.

(** The library behind [Math.sin], [Math.cos] and [Math.atan2], with the
    two results ECMA-262 fixes that the development uses: the sine of
    [NaN] or of an infinity is [NaN], and so is [atan2] of [NaN] and
    anything. *)
Record MathLibrary : Type := {
  Math_sin : float -> float;
  Math_cos : float -> float;
  Math_atan2 : float -> float -> float;
  Math_sin_not_finite : forall x, PrimFloat.is_finite x = false -> Math_sin x = nan;
  Math_atan2_NaN : forall x, Math_atan2 nan x = nan
}.

(** The strings [Number.prototype.toFixed] returns, kept symbolic. *)
Inductive NumString : Type :=
| Fixed (negative : bool) (fractionDigits : nat) (n : N)
    (* "-" when [negative], then the integer [n] written with a point
       before its last [fractionDigits] digits: [Fixed false 2 250] is
       "2.50", [Fixed true 1 0] is "-0.0" *)
| Shortest (x : float)
    (* ToString(x), used when |x| >= 10^21 *)
| StrInfinity
| StrNegInfinity
| StrNaN.

(** The integer nearest to [m * 2^e], the larger one on a tie, for
    [m >= 0]. *)
Definition round_half_up (m e : Z) : Z :=
  if (0 <=? e)%Z then m * 2 ^ e
  else (2 * m + 2 ^ (- e)) / 2 ^ (1 - e).

(** [x.toFixed(f)] (ECMA-262, Number.prototype.toFixed): [n] is the integer
    for which [n / 10^f - x] is as close to zero as possible, the larger
    one if there are two, [x] being the exact value of the number. *)
Definition toFixed (x : float) (f : nat) : NumString :=
  match Prim2SF x with
  | S754_nan => StrNaN
  | S754_infinity s => if s then StrNegInfinity else StrInfinity
  | S754_zero _ => Fixed false f 0
  | S754_finite s m e =>
      if (1e21 <=? abs x)%float then Shortest x
      else Fixed s f (Z.to_N (round_half_up (Zpos m * 10 ^ Z.of_nat f) e))
  end.

(** [parseFloat(s)] on the strings above (also what [ToNumber] gives when
    such a string meets the [-] operator): the number nearest to the
    decimal. *)
Definition parseFloat (s : NumString) : float :=
  match s with
  | Fixed negative f n =>
      let magnitude :=
        match n with
        | N0 => S754_zero false
        | Npos p =>
            SFdiv prec emax (S754_finite false p 0)
                  (S754_finite false (Z.to_pos (10 ^ Z.of_nat f)) 0)
        end in
      SF2Prim (if negative then SFopp magnitude else magnitude)
  | Shortest x => x
  | StrInfinity => infinity
  | StrNegInfinity => neg_infinity
  | StrNaN => nan
  end.

(** ** Plain objects *)

(** The property names every plain object inherits from
    [Object.prototype]; each holds a function or, for [__proto__], the
    prototype object, so that a read yields a truthy value that is neither
    [undefined] nor one of the page's records. *)
Definition Object_prototype_names : list string :=
  [ "constructor"; "hasOwnProperty"; "isPrototypeOf"; "propertyIsEnumerable";
    "toLocaleString"; "toString"; "valueOf"; "__proto__";
    "__defineGetter__"; "__defineSetter__"; "__lookupGetter__";
    "__lookupSetter__" ].

Definition inherited (key : string) : bool :=
  bool_decide (key ∈ Object_prototype_names).

Definition digit_value (c : Ascii.ascii) : option N :=
  let n := Ascii.N_of_ascii c in
  if ((48 <=? n) && (n <=? 57))%N then Some (n - 48)%N else None.

Fixpoint digits_value (s : string) (acc : N) : option N :=
  match s with
  | EmptyString => Some acc
  | String c rest =>
      match digit_value c with
      | Some d => digits_value rest (10 * acc + d)%N
      | None => None
      end
  end.

(** The array index a property key denotes, if any: the key is the decimal
    numeral, without leading zero, of an integer below 2^32 - 1. *)
Definition array_index (key : string) : option N :=
  match key with
  | EmptyString => None
  | String c rest =>
      if ((Ascii.N_of_ascii c =? 48)%N && negb (String.eqb rest ""))%bool then None
      else match digits_value key 0 with
           | Some n => if (n <? 4294967295)%N then Some n else None
           | None => None
           end
  end.

(** [key] is listed before an own property [k] it is added next to: an
    array index goes before the larger indices and before every other
    key. *)
Definition listed_before (key k : string) : bool :=
  match array_index key, array_index k with
  | Some i, Some j => (i <? j)%N
  | Some _, None => true
  | None, _ => false
  end.

(** A new own property takes its place in the order of [Object.entries]:
    array indices ascending, then the other keys in the order they were
    added. *)
Fixpoint own_add (o : SpeciesFrequency) (key : string) (v : SpeciesInfo)
  : SpeciesFrequency :=
  match o with
  | [] => [(key, v)]
  | (k, w) :: rest =>
      if listed_before key k then (key, v) :: (k, w) :: rest
      else (k, w) :: own_add rest key v
  end.

Fixpoint own_update (o : SpeciesFrequency) (key : string) (v : SpeciesInfo)
  : SpeciesFrequency :=
  match o with
  | [] => []
  | (k, w) :: rest =>
      if String.eqb k key then (k, v) :: rest else (k, w) :: own_update rest key v
  end.

(** [o[key] = v] on a species table. *)
Definition own_set (o : SpeciesFrequency) (key : string) (v : SpeciesInfo)
  : SpeciesFrequency :=
  match obj_get o key with
  | Some _ => own_update o key v
  | None => own_add o key v
  end.

(** What a read [o[key]] finds on a plain object whose own properties hold
    values of type [A]. *)
Inductive Read (A : Type) : Type :=
| Undefined
| Inherited
| Own (a : A).
Arguments Undefined {A}.
Arguments Inherited {A}.
Arguments Own {A} a.

Definition read_species (o : SpeciesFrequency) (key : string) : Read SpeciesInfo :=
  match obj_get o key with
  | Some d => Own d
  | None => if inherited key then Inherited else Undefined
  end.

Definition read_summary (o : gmap string HotspotData) (key : string)
  : Read HotspotData :=
  match o !! key with
  | Some hd => Own hd
  | None => if inherited key then Inherited else Undefined
  end.

(** ** Step 2: the species tally *)

(** The body of the [forEach] callback.  [!speciesFrequency[code]] holds
    only when the read finds nothing, so a code naming an inherited
    property gets no entry; the increment then lands on the inherited
    object and leaves the table as it is. *)
Definition tally (speciesFrequency : SpeciesFrequency) (obs : Observation)
  : SpeciesFrequency :=
  let speciesFrequency :=
    match read_species speciesFrequency (speciesCode obs) with
    | Undefined =>
        own_set speciesFrequency (speciesCode obs)
          {| commonName := comName obs;
             scientificName := sciName obs;
             count := 0;
             lastSeen := obsDt obs |}
    | Inherited | Own _ => speciesFrequency
    end in
  match read_species speciesFrequency (speciesCode obs) with
  | Own d =>
      own_set speciesFrequency (speciesCode obs)
        {| commonName := commonName d;
           scientificName := scientificName d;
           count := S (count d);
           lastSeen := lastSeen d |}
  | Inherited | Undefined => speciesFrequency
  end.

Definition fetchHotspotSpecies (hotspotId : string)
    (response : option (list Observation)) : HotspotData :=
  match response with
  | Some observations =>
      {| hotspotId := hotspotId;
         species := foldl tally [] observations;
         totalChecklists := length observations |}
  | None => {| hotspotId := hotspotId; species := []; totalChecklists := 0 |}
  end.

(** Keys in ascending order of the array indices they denote. *)
Definition index_le (a b : string) : Prop :=
  match array_index a, array_index b with
  | Some i, Some j => (i <= j)%N
  | _, _ => True
  end.

(** A key that is listed by name: neither an array index nor the name of
    an inherited property. *)
Definition named (key : string) : bool :=
  match array_index key with
  | Some _ => false
  | None => negb (inherited key)
  end.

(** The records of a response whose species code gets an entry. *)
Definition tallied (observations : list Observation) : list Observation :=
  List.filter (fun obs => negb (inherited (speciesCode obs))) observations.

(** ** The distance helper *)

Section Distance.
Context (M : MathLibrary).
Local Open Scope float_scope.

Definition toRad (deg : float) : float := deg * (Math_PI / 180).

Definition calculateDistance (lat1 lon1 lat2 lon2 : float) : float :=
  let R := 6371 in
  let dLat := toRad (lat2 - lat1) in
  let dLon := toRad (lon2 - lon1) in
  let a :=
    Math_sin M (dLat / 2) * Math_sin M (dLat / 2) +
    Math_cos M (toRad lat1) * Math_cos M (toRad lat2) *
    Math_sin M (dLon / 2) * Math_sin M (dLon / 2) in
  let c := 2 * Math_atan2 M (sqrt a) (sqrt (1 - a)) in
  R * c.
End Distance.

(** ** Data *)

Record Hotspot : Type := {
  locId : string;
  locName : string;
  lat : float;
  lng : float
}.

Record Region : Type := {
  regionName : string;
  centerLat : float;
  centerLng : float;
  radius : float
}.

(** [CHICAGO_WEST] of app/page.tsx: 41.94, -87.67 and 20. *)
Definition CHICAGO_WEST : Region := {|
  regionName := "Chicago West Side";
  centerLat := 0x1.4f851eb851eb8p+5;
  centerLng := -0x1.5eae147ae147bp+6;
  radius := 20
|}.

Record TopSpecies : Type := {
  name : string;
  probability : NumString
}.

Record Recommendation : Type := {
  hotspot : Hotspot;
  newSpeciesCount : nat;
  expectedNewSpecies : NumString;
  distance : NumString;
  score : NumString;
  topNewSpecies : list TopSpecies
}.

Record State : Type := {
  stage : Stage;
  hotspots : list Hotspot;
  speciesData : gmap string HotspotData;
  userLifeList : gset string;
  recommendations : list Recommendation
}.

(** What a call does: it returns a value or throws. *)
Inductive Exception : Type := TypeError.

Inductive Completion (A : Type) : Type :=
| Returned (a : A)
| Threw (e : Exception).
Arguments Returned {A} a.
Arguments Threw {A} e.

(** ** Step 4: [calculateRecommendations] *)

Section Engine.
Context (M : MathLibrary) (region : Region).
Local Open Scope float_scope.

Definition probabilityOf (hotspotData : HotspotData) (data : SpeciesInfo) : float :=
  num_of_nat (count data) / num_of_nat (totalChecklists hotspotData).

Definition expectedNewSpeciesOf (hotspotData : HotspotData)
    (newSpecies : list (string * SpeciesInfo)) : float :=
  foldl (fun sum entry => sum + probabilityOf hotspotData entry.2) 0 newSpecies.

Definition distanceOf (hotspot : Hotspot) : float :=
  calculateDistance M (centerLat region) (centerLng region)
                    (lat hotspot) (lng hotspot).

Definition scoreOf (distance expectedNewSpecies : float) : float :=
  if 0 <? distance then expectedNewSpecies / sqrt distance
  else expectedNewSpecies.

Definition topSpeciesOf (hotspotData : HotspotData)
    (entry : string * SpeciesInfo) : TopSpecies :=
  let data := entry.2 in
  {| name := commonName data;
     probability := toFixed (probabilityOf hotspotData data * 100) 0 |}.

(** The callback of [hotspots.map].  The read [speciesData[hotspot.locId]]
    yields [undefined] ([null] is returned), a summary, or an inherited
    value: that one is truthy and has no [species], and
    [Object.entries(undefined)] throws a [TypeError].  The species table is
    the list [Object.entries] gives; counts are integers, whose difference
    in the comparator of the top-species sort is exact, so that sort is
    [Array_sort byCountDesc] of the integers. *)
Definition recommend (speciesData : gmap string HotspotData)
    (userLifeList : gset string) (hotspot : Hotspot)
  : Completion (option Recommendation) :=
  match read_summary speciesData (locId hotspot) with
  | Undefined => Returned None
  | Inherited => Threw TypeError
  | Own hotspotData =>
      let newSpecies := newSpeciesOf userLifeList hotspotData in
      let expectedNewSpecies := expectedNewSpeciesOf hotspotData newSpecies in
      let distance := distanceOf hotspot in
      let score := scoreOf distance expectedNewSpecies in
      Returned (Some
        {| hotspot := hotspot;
           newSpeciesCount := length newSpecies;
           expectedNewSpecies := toFixed expectedNewSpecies 1;
           distance := toFixed distance 1;
           score := toFixed score 2;
           topNewSpecies :=
             map (topSpeciesOf hotspotData)
                 (take 5 (Array_sort byCountDesc newSpecies)) |})
  end.
End Engine.

(** ** Array.prototype.sort, for a comparator returning a number *)

Section ArraySort.
Context {A : Type} (comparefn : A -> A -> float).

(** The comparator result is positive; [NaN] counts as [+0]. *)
Definition after (x y : A) : bool := (0 <? comparefn x y)%float.

Fixpoint sort_insert (x : A) (sorted : list A) : list A :=
  match sorted with
  | [] => [x]
  | y :: rest =>
      if after x y then y :: sort_insert x rest else x :: y :: rest
  end.

Definition Array_sort (l : list A) : list A := foldr sort_insert [] l.
End ArraySort.

(** [array.map(callback)] for a callback that may throw: the first throw
    ends the call. *)
Fixpoint Array_map {A B : Type} (callback : A -> Completion B) (l : list A)
  : Completion (list B) :=
  match l with
  | [] => Returned []
  | x :: rest =>
      match callback x with
      | Threw e => Threw e
      | Returned y =>
          match Array_map callback rest with
          | Threw e => Threw e
          | Returned ys => Returned (y :: ys)
          end
      end
  end.

(** ** The ranking *)

Section Ranking.
Context (M : MathLibrary) (region : Region).
Local Open Scope float_scope.

(** [(a, b) => parseFloat(b.score) - parseFloat(a.score)] *)
Definition byScoreDesc (a b : Recommendation) : float :=
  parseFloat (score b) - parseFloat (score a).

Definition rank (speciesData : gmap string HotspotData)
    (userLifeList : gset string) (hotspots : list Hotspot)
  : Completion (list Recommendation) :=
  match Array_map (recommend M region speciesData userLifeList) hotspots with
  | Threw e => Threw e
  | Returned nullable =>
      let recs := omap (fun r => r) nullable in
      Returned (Array_sort byScoreDesc recs)
  end.

(** When the callback throws, neither [setRecommendations] nor [setStage]
    is reached. *)
Definition calculateRecommendations (s : State) : Completion State :=
  match rank (speciesData s) (userLifeList s) (hotspots s) with
  | Threw e => Threw e
  | Returned recs =>
      Returned {| stage := StageRecommendations;
                  hotspots := hotspots s;
                  speciesData := speciesData s;
                  userLifeList := userLifeList s;
                  recommendations := recs |}
  end.
End Ranking.

(** ** A library for closed examples

    Truncated power series, with the special cases of ECMA-262.  They stand
    for [Math.sin], [Math.cos] and [Math.atan2] where an example has to be
    evaluated; no theorem depends on their accuracy. *)

Section Series.
Local Open Scope float_scope.

Definition series_sin (x : float) : float :=
  if PrimFloat.is_finite x then
    let z := x * x in
    x * (1 - z / 6 * (1 - z / 20 * (1 - z / 42 * (1 - z / 72 *
        (1 - z / 110 * (1 - z / 156 * (1 - z / 210)))))))
  else nan.

Definition series_cos (x : float) : float :=
  if PrimFloat.is_finite x then
    let z := x * x in
    1 - z / 2 * (1 - z / 12 * (1 - z / 30 * (1 - z / 56 *
        (1 - z / 90 * (1 - z / 132 * (1 - z / 182))))))
  else nan.

(** The arctangent of a number of [0, 1]: two halvings of the angle, then
    the series. *)
Definition series_atan (t : float) : float :=
  let halve := fun u => u / (1 + sqrt (1 + u * u)) in
  let u := halve (halve t) in
  let z := u * u in
  4 * (u * (1 - z / 3 + z * z / 5 - z * z * z / 7 + z * z * z * z / 9)).

Definition series_atan2 (y x : float) : float :=
  if PrimFloat.is_nan y || PrimFloat.is_nan x then nan
  else if 0 <? x then
    if y <=? x then series_atan (y / x) else Math_PI / 2 - series_atan (x / y)
  else Math_PI / 2.
End Series.

Definition series_library : MathLibrary := {|
  Math_sin := series_sin;
  Math_cos := series_cos;
  Math_atan2 := series_atan2;
  Math_sin_not_finite :=
    ltac:(intros x H; unfold series_sin; rewrite H; reflexivity);
  Math_atan2_NaN := fun x => eq_refl
|}.
(** ** Sample data *)

Definition place (id : string) (latitude longitude : float) : Hotspot :=
  {| locId := id; locName := id; lat := latitude; lng := longitude |}.

(** A hotspot at the centre of [CHICAGO_WEST]. *)
Definition at_center (id : string) : Hotspot :=
  place id (centerLat CHICAGO_WEST) (centerLng CHICAGO_WEST).

(** The place 41.88, -87.75 of the distance fixture. *)
Definition fixture_place (id : string) : Hotspot :=
  place id 0x1.4f0a3d70a3d71p+5 (-0x1.5fp+6).

(** A place whose latitude was read from the JSON number 1e999. *)
Definition off_the_map (id : string) : Hotspot :=
  place id infinity (centerLng CHICAGO_WEST).

End Js.
(** * Properties *)

(** ** Real comparisons *)

Lemma Rltb_true (a b : R) : (a < b)%R -> Rltb a b = true.
Proof. intros H; unfold Rltb; destruct (Rlt_dec a b); [reflexivity | contradiction]. Qed.

Lemma Rltb_false (a b : R) : (b <= a)%R -> Rltb a b = false.
Proof. intros H; unfold Rltb; destruct (Rlt_dec a b); [lra | reflexivity]. Qed.

Lemma Rleb_true (a b : R) : (a <= b)%R -> Rleb a b = true.
Proof. intros H; unfold Rleb; destruct (Rle_dec a b); [reflexivity | contradiction]. Qed.

Lemma Rleb_false (a b : R) : (b < a)%R -> Rleb a b = false.
Proof. intros H; unfold Rleb; destruct (Rle_dec a b); [lra | reflexivity]. Qed.

Lemma Reqb_true (a b : R) : a = b -> Reqb a b = true.
Proof. intros H; unfold Reqb; destruct (Req_dec_T a b); [reflexivity | contradiction]. Qed.

Lemma Reqb_false (a b : R) : a <> b -> Reqb a b = false.
Proof. intros H; unfold Reqb; destruct (Req_dec_T a b); [contradiction | reflexivity]. Qed.

(** ** The distance helper *)

Section Distance.
Local Open Scope R_scope.

Lemma toRad_sub (x y : R) : toRad (x - y) = toRad x - toRad y.
Proof. unfold toRad; lra. Qed.

Lemma sin_sq_swap (x y : R) :
  sin (toRad (x - y) / 2) * sin (toRad (x - y) / 2) =
  sin (toRad (y - x) / 2) * sin (toRad (y - x) / 2).
Proof.
  replace (toRad (x - y) / 2) with (- (toRad (y - x) / 2))
    by (unfold toRad; lra).
  rewrite sin_neg; ring.
Qed.

Lemma haversine_a_sym (lat1 lon1 lat2 lon2 : R) :
  haversine_a lat1 lon1 lat2 lon2 = haversine_a lat2 lon2 lat1 lon1.
Proof.
  unfold haversine_a; cbv zeta.
  rewrite (sin_sq_swap lat2 lat1).
  rewrite !Rmult_assoc, (sin_sq_swap lon2 lon1).
  ring.
Qed.

Lemma haversine_a_diag (lat0 lon0 : R) : haversine_a lat0 lon0 lat0 lon0 = 0.
Proof.
  unfold haversine_a; cbv zeta.
  replace (toRad (lat0 - lat0) / 2) with 0 by (unfold toRad; lra).
  replace (toRad (lon0 - lon0) / 2) with 0 by (unfold toRad; lra).
  rewrite sin_0; ring.
Qed.

(** [sin^2 (x/2)] is the haversine [(1 - cos x) / 2]. *)
Lemma sin_half_sq (x : R) : sin (x / 2) * sin (x / 2) = (1 - cos x) / 2.
Proof.
  replace x with (2 * (x / 2)) at 3 by lra.
  rewrite cos_2a_sin; lra.
Qed.

(** [a] is the haversine of the central angle: it is [(1 - k) / 2] with
    [k] the scalar product of the two unit vectors. *)
Lemma haversine_a_dot (lat1 lon1 lat2 lon2 : R) :
  haversine_a lat1 lon1 lat2 lon2 =
  (1 - (sin (toRad lat1) * sin (toRad lat2) +
        cos (toRad lat1) * cos (toRad lat2) * cos (toRad (lon2 - lon1)))) / 2.
Proof.
  unfold haversine_a; cbv zeta.
  rewrite sin_half_sq.
  rewrite !Rmult_assoc, sin_half_sq.
  rewrite (toRad_sub lat2 lat1), cos_minus.
  lra.
Qed.

Lemma haversine_a_range (lat1 lon1 lat2 lon2 : R) :
  0 <= haversine_a lat1 lon1 lat2 lon2 <= 1.
Proof.
  rewrite haversine_a_dot.
  pose proof (sin2_cos2 (toRad lat1)) as H1.
  pose proof (sin2_cos2 (toRad lat2)) as H2.
  pose proof (COS_bound (toRad (lon2 - lon1))) as [Hk1 Hk2].
  unfold Rsqr in H1, H2.
  set (s1 := sin (toRad lat1)) in *. set (c1 := cos (toRad lat1)) in *.
  set (s2 := sin (toRad lat2)) in *. set (c2 := cos (toRad lat2)) in *.
  set (k := cos (toRad (lon2 - lon1))) in *.
  assert (Hs : - 1 <= s1 * s2 + c1 * c2 * k <= 1).
  { assert (Hcc : - (c1 * c1 + c2 * c2) / 2 <= c1 * c2 * k <= (c1 * c1 + c2 * c2) / 2).
    { assert (Hm : 2 * (c1 * c2) <= c1 * c1 + c2 * c2)
        by (pose proof (Rle_0_sqr (c1 - c2)) as Hm; unfold Rsqr in Hm; lra).
      assert (Hp : - (c1 * c1 + c2 * c2) <= 2 * (c1 * c2))
        by (pose proof (Rle_0_sqr (c1 + c2)) as Hp; unfold Rsqr in Hp; lra).
      set (p := c1 * c2) in *.
      destruct (Rle_dec 0 p) as [Hpos | Hneg].
      - assert (p * k <= p * 1) by (apply Rmult_le_compat_l; lra).
        assert (p * (- 1) <= p * k) by (apply Rmult_le_compat_l; lra).
        split; lra.
      - assert (- p * k <= - p * 1) by (apply Rmult_le_compat_l; lra).
        assert (- p * (- 1) <= - p * k) by (apply Rmult_le_compat_l; lra).
        split; lra. }
    assert (Hm : 2 * (s1 * s2) <= s1 * s1 + s2 * s2)
      by (pose proof (Rle_0_sqr (s1 - s2)) as Hm; unfold Rsqr in Hm; lra).
    assert (Hp : - (s1 * s1 + s2 * s2) <= 2 * (s1 * s2))
      by (pose proof (Rle_0_sqr (s1 + s2)) as Hp; unfold Rsqr in Hp; lra).
    split; lra. }
  lra.
Qed.

Lemma Math_atan2_pos (y x : R) : 0 < x -> Math_atan2 y x = atan (y / x).
Proof. intros Hx; unfold Math_atan2; now rewrite Rltb_true. Qed.

Lemma Math_atan2_zero_pos (y : R) : 0 < y -> Math_atan2 y 0 = PI / 2.
Proof.
  intros Hy; unfold Math_atan2.
  rewrite (Rltb_false 0 0), Rltb_true by lra; reflexivity.
Qed.

Lemma calculateDistance_sym (lat1 lon1 lat2 lon2 : R) :
  calculateDistance lat1 lon1 lat2 lon2 = calculateDistance lat2 lon2 lat1 lon1.
Proof. unfold calculateDistance; now rewrite haversine_a_sym. Qed.

Lemma calculateDistance_diag (lat0 lon0 : R) :
  calculateDistance lat0 lon0 lat0 lon0 = 0.
Proof.
  unfold calculateDistance; cbv zeta.
  rewrite haversine_a_diag, Rminus_0_r, sqrt_0, sqrt_1.
  rewrite Math_atan2_pos by lra.
  replace (0 / 1) with 0 by lra.
  rewrite atan_0; ring.
Qed.
End Distance.

Section CentralAngle.
Local Open Scope R_scope.

(** The angle [atan2(sqrt a, sqrt (1 - a))] is the arcsine of [sqrt a]. *)
Lemma central_angle (a : R) :
  0 <= a <= 1 ->
  0 <= Math_atan2 (sqrt a) (sqrt (1 - a)) <= PI / 2 /\
  sin (Math_atan2 (sqrt a) (sqrt (1 - a))) = sqrt a.
Proof.
  intros [Ha0 Ha1].
  destruct (Req_dec_T a 1) as [-> | Hne].
  - replace (1 - 1) with 0 by lra.
    rewrite sqrt_0, sqrt_1, Math_atan2_zero_pos by lra.
    pose proof PI_RGT_0.
    rewrite sin_PI2. repeat split; lra.
  - assert (Hx : 0 < sqrt (1 - a)) by (apply sqrt_lt_R0; lra).
    rewrite Math_atan2_pos by assumption.
    set (x := sqrt (1 - a)) in *.
    set (t := sqrt a / x).
    assert (Ht : 0 <= t).
    { unfold t. apply Rmult_le_pos; [apply sqrt_pos |].
      left; now apply Rinv_0_lt_compat. }
    assert (Hatan : 0 <= atan t).
    { destruct Ht as [Ht | <-]; [| rewrite atan_0; lra].
      left. rewrite <- atan_0. now apply atan_increasing. }
    pose proof (atan_bound t) as [_ Hub].
    split; [lra |].
    rewrite sin_atan.
    assert (Hxx : x * x = 1 - a) by (apply sqrt_sqrt; lra).
    assert (Hss : sqrt a * sqrt a = a) by (now apply sqrt_sqrt).
    assert (Hden : 1 + t² = (/ x)²).
    { assert (Hone : x * x + sqrt a * sqrt a = 1) by lra.
      unfold t, Rsqr.
      replace (1 + sqrt a / x * (sqrt a / x))
        with ((x * x + sqrt a * sqrt a) / (x * x)) by (field; lra).
      rewrite Hone; field; lra. }
    rewrite Hden, sqrt_Rsqr by (left; now apply Rinv_0_lt_compat).
    unfold t; field; lra.
Qed.

Lemma calculateDistance_angle (lat1 lon1 lat2 lon2 : R) :
  calculateDistance lat1 lon1 lat2 lon2 / (2 * 6371) =
  Math_atan2 (sqrt (haversine_a lat1 lon1 lat2 lon2))
             (sqrt (1 - haversine_a lat1 lon1 lat2 lon2)).
Proof. unfold calculateDistance; cbv zeta; field. Qed.

Lemma calculateDistance_nonneg (lat1 lon1 lat2 lon2 : R) :
  0 <= calculateDistance lat1 lon1 lat2 lon2.
Proof.
  pose proof (central_angle _ (haversine_a_range lat1 lon1 lat2 lon2)) as [[H _] _].
  unfold calculateDistance; cbv zeta; lra.
Qed.
End CentralAngle.

(** ** The fixture distance *)

Section Fixture.
Local Open Scope R_scope.

Lemma PI_bounds : 314159 / 100000 < PI < 314160 / 100000.
Proof.
  pose proof (PI_2_3_7_ineq 2) as [Hlo Hhi].
  unfold PI_2_3_7_tg, tg_alt, Ratan_seq in Hlo, Hhi.
  simpl in Hlo, Hhi.
  split; lra.
Qed.

Lemma sin_taylor (x : R) : 0 <= x <= PI -> x - x * x * x / 6 <= sin x <= x.
Proof.
  intros [H0 H1]. split.
  - pose proof (sin_bound x 0 H0 H1) as [Hlo _].
    unfold sin_approx, sin_term in Hlo. simpl in Hlo. lra.
  - destruct H0 as [H0 | <-]; [left; now apply sin_lt_x | rewrite sin_0; lra].
Qed.

Lemma cos_taylor (x : R) :
  - PI / 2 <= x <= PI / 2 ->
  1 - x * x / 2 <= cos x <= 1 - x * x / 2 + x * x * x * x / 24.
Proof.
  intros [H0 H1].
  pose proof (cos_bound x 0 H0 H1) as [Hlo Hhi].
  unfold cos_approx, cos_term in Hlo, Hhi. simpl in Hlo, Hhi. lra.
Qed.

Lemma mul_interval (x y a b c d : R) :
  a <= x <= b -> c <= y <= d -> 0 <= a -> 0 <= c -> a * c <= x * y <= b * d.
Proof.
  intros [Hax Hxb] [Hcy Hyd] Ha Hc. split.
  - apply Rmult_le_compat; lra.
  - apply Rmult_le_compat; lra.
Qed.

Lemma fixture_a_bounds :
  53 / 100000000 <= haversine_a (4194/100) (-(8767/100)) (4188/100) (-(8775/100)) <= 55 / 100000000.
Proof.
  pose proof PI_bounds as [Hpi1 Hpi2].
  unfold haversine_a; cbv zeta.
  rewrite (sin_sq_swap (4188/100) (4194/100)).
  rewrite !Rmult_assoc, (sin_sq_swap (-(8775/100)) (-(8767/100))).
  set (u := toRad (4194 / 100 - 4188 / 100) / 2).
  set (v := toRad (- (8767 / 100) - - (8775 / 100)) / 2).
  set (p := toRad (4194 / 100)). set (q := toRad (4188 / 100)).
  assert (Hu : 5235 / 10000000 <= u <= 5236 / 10000000) by (unfold u, toRad; split; lra).
  assert (Hv : 6981 / 10000000 <= v <= 6982 / 10000000) by (unfold v, toRad; split; lra).
  assert (Hp : 7319 / 10000 <= p <= 7320 / 10000) by (unfold p, toRad; split; lra).
  assert (Hq : 7309 / 10000 <= q <= 7310 / 10000) by (unfold q, toRad; split; lra).
  pose proof (sin_taylor u ltac:(split; lra)) as Hsu.
  pose proof (sin_taylor v ltac:(split; lra)) as Hsv.
  pose proof (cos_taylor p ltac:(split; lra)) as Hcp.
  pose proof (cos_taylor q ltac:(split; lra)) as Hcq.
  pose proof (mul_interval u u _ _ _ _ Hu Hu ltac:(lra) ltac:(lra)) as Huu.
  pose proof (mul_interval (u * u) u _ _ _ _ Huu Hu ltac:(lra) ltac:(lra)) as Huuu.
  pose proof (mul_interval v v _ _ _ _ Hv Hv ltac:(lra) ltac:(lra)) as Hvv.
  pose proof (mul_interval (v * v) v _ _ _ _ Hvv Hv ltac:(lra) ltac:(lra)) as Hvvv.
  pose proof (mul_interval p p _ _ _ _ Hp Hp ltac:(lra) ltac:(lra)) as Hpp.
  pose proof (mul_interval (p * p) p _ _ _ _ Hpp Hp ltac:(lra) ltac:(lra)) as Hp3.
  pose proof (mul_interval (p * p * p) p _ _ _ _ Hp3 Hp ltac:(lra) ltac:(lra)) as Hp4.
  pose proof (mul_interval q q _ _ _ _ Hq Hq ltac:(lra) ltac:(lra)) as Hqq.
  pose proof (mul_interval (q * q) q _ _ _ _ Hqq Hq ltac:(lra) ltac:(lra)) as Hq3.
  pose proof (mul_interval (q * q * q) q _ _ _ _ Hq3 Hq ltac:(lra) ltac:(lra)) as Hq4.
  assert (Hsu' : 5234 / 10000000 <= sin u <= 5236 / 10000000) by (split; lra).
  assert (Hsv' : 6980 / 10000000 <= sin v <= 6982 / 10000000) by (split; lra).
  assert (Hcp' : 732 / 1000 <= cos p <= 745 / 1000) by (split; lra).
  assert (Hcq' : 732 / 1000 <= cos q <= 746 / 1000) by (split; lra).
  clear - Hsu' Hsv' Hcp' Hcq'.
  pose proof (mul_interval _ _ _ _ _ _ Hsu' Hsu' ltac:(lra) ltac:(lra)) as H1.
  pose proof (mul_interval _ _ _ _ _ _ Hsv' Hsv' ltac:(lra) ltac:(lra)) as H2.
  pose proof (mul_interval _ _ _ _ _ _ Hcq' H2 ltac:(lra) ltac:(lra)) as H3.
  pose proof (mul_interval _ _ _ _ _ _ Hcp' H3 ltac:(lra) ltac:(lra)) as H4.
  split; lra.
Qed.

Lemma sqrt_interval (a lo hi : R) :
  0 <= lo -> 0 <= hi -> lo * lo <= a <= hi * hi -> lo <= sqrt a <= hi.
Proof.
  intros Hlo Hhi [H1 H2]. split.
  - rewrite <- (sqrt_square lo) by assumption. now apply sqrt_le_1_alt.
  - rewrite <- (sqrt_square hi) by assumption. now apply sqrt_le_1_alt.
Qed.

Lemma fixture_distance_bounds :
  927 / 100 <= calculateDistance (4194/100) (-(8767/100)) (4188/100) (-(8775/100)) <= 956 / 100.
Proof.
  pose proof PI_bounds as [Hpi1 Hpi2].
  pose proof fixture_a_bounds as Ha.
  pose proof (haversine_a_range (4194/100) (-(8767/100)) (4188/100) (-(8775/100))) as Hr.
  pose proof (central_angle _ Hr) as [[Ht0 Ht1] Hsin].
  unfold calculateDistance; cbv zeta.
  set (a := haversine_a _ _ _ _) in *.
  set (t := Math_atan2 (sqrt a) (sqrt (1 - a))) in *.
  assert (Hs : 728 / 1000000 <= sqrt a <= 742 / 1000000)
    by (apply sqrt_interval; [lra | lra | split; lra]).
  assert (Hlow : sqrt a <= t).
  { rewrite <- Hsin. destruct Ht0 as [Ht0 | <-]; [left; now apply sin_lt_x | rewrite sin_0; lra]. }
  assert (Hup : t <= 75 / 100000).
  { destruct (Rle_dec t (75 / 100000)) as [Hle | Hgt]; [assumption | exfalso].
    assert (Hlt : 75 / 100000 < t) by lra.
    pose proof (sin_increasing_1 (75 / 100000) t ltac:(lra) ltac:(lra) ltac:(lra) Ht1 Hlt) as Hinc.
    pose proof (sin_taylor (75 / 100000) ltac:(split; lra)) as [Hst _].
    lra. }
  split; lra.
Qed.
End Fixture.

(** C6: the distance is symmetric in its two points and is 0 from a point
    to itself. *)
Theorem distance_symmetric_zero_diagonal (lat1 lon1 lat2 lon2 : R) :
  calculateDistance lat1 lon1 lat2 lon2 = calculateDistance lat2 lon2 lat1 lon1 /\
  calculateDistance lat1 lon1 lat1 lon1 = 0%R.
Proof. split; [apply calculateDistance_sym | apply calculateDistance_diag]. Qed.

Section FixtureClaims.
Local Open Scope R_scope.

(** C7, counterexample: on the fixture the distance is above 9.27 km,
    more than 0.2 km away from 8.1 km. *)
Lemma fixture_not_8_1 :
  ~ Rabs (calculateDistance (4194 / 100) (- (8767 / 100))
                            (4188 / 100) (- (8775 / 100)) - 81 / 10) <= 2 / 10.
Proof.
  pose proof fixture_distance_bounds as [Hlo Hhi].
  intros H. pose proof (Rle_abs (calculateDistance (4194 / 100) (- (8767 / 100))
                                   (4188 / 100) (- (8775 / 100)) - 81 / 10)).
  lra.
Qed.

(** C7, amended: [calculateDistance] is the haversine formula on a sphere
    of radius 6371 km, the central angle being taken with [atan2]: the
    result [d] lies between 0 and half the circumference and the haversine
    of the angle [d / 6371], [sin^2 (d / (2 * 6371))], is the quantity [a]
    of the formula.  On the fixture the result is within 0.2 km of
    9.4 km. *)
Theorem haversine_fixture :
  (forall lat1 lon1 lat2 lon2 : R,
      let d := calculateDistance lat1 lon1 lat2 lon2 in
      d = 6371 * (2 * Math_atan2 (sqrt (haversine_a lat1 lon1 lat2 lon2))
                                 (sqrt (1 - haversine_a lat1 lon1 lat2 lon2))) /\
      0 <= d <= 6371 * PI /\
      sin (d / (2 * 6371)) * sin (d / (2 * 6371)) =
        sin (toRad (lat2 - lat1) / 2) * sin (toRad (lat2 - lat1) / 2) +
        cos (toRad lat1) * cos (toRad lat2) *
        sin (toRad (lon2 - lon1) / 2) * sin (toRad (lon2 - lon1) / 2)) /\
  Rabs (calculateDistance (4194 / 100) (- (8767 / 100))
                          (4188 / 100) (- (8775 / 100)) - 94 / 10) <= 2 / 10.
Proof.
  split.
  - intros lat1 lon1 lat2 lon2. cbv zeta.
    pose proof (haversine_a_range lat1 lon1 lat2 lon2) as Hr.
    pose proof (central_angle _ Hr) as [[Ht0 Ht1] Hsin].
    split; [reflexivity |]. split.
    + unfold calculateDistance; cbv zeta. split; lra.
    + rewrite calculateDistance_angle, Hsin.
      rewrite sqrt_sqrt by apply Hr. reflexivity.
  - pose proof fixture_distance_bounds as [Hlo Hhi].
    apply Rabs_le. split; lra.
Qed.
End FixtureClaims.

(** ** Number facts *)

Lemma num_gt_sub (x y : number) :
  is_nan x = false -> is_nan y = false ->
  num_gt (num_sub y x) (Fin 0) = num_gt y x.
Proof.
  destruct x as [a | | |], y as [b | | |]; intros Hx Hy; try discriminate; try reflexivity.
  cbn. unfold Rltb.
  destruct (Rlt_dec 0 (b + - a)), (Rlt_dec a b); try reflexivity; lra.
Qed.

Lemma num_gt_trans_neg (x y z : number) :
  is_nan x = false -> is_nan y = false -> is_nan z = false ->
  num_gt y x = false -> num_gt z y = false -> num_gt z x = false.
Proof.
  destruct x as [a | | |], y as [b | | |], z as [c | | |]; cbn;
    intros Hx Hy Hz H1 H2; try discriminate; try reflexivity.
  unfold Rltb in *.
  destruct (Rlt_dec a b), (Rlt_dec b c), (Rlt_dec a c); try discriminate; try reflexivity; lra.
Qed.

Lemma num_gt_asym (x y : number) : num_gt x y = true -> num_gt y x = false.
Proof.
  destruct x as [a | | |], y as [b | | |]; cbn; intros H; try discriminate; try reflexivity.
  unfold Rltb in *. destruct (Rlt_dec b a), (Rlt_dec a b); try discriminate; try reflexivity; lra.
Qed.

Lemma num_ge_not_gt (x y : number) :
  is_nan x = false -> is_nan y = false ->
  num_ge x y = negb (num_gt y x).
Proof.
  destruct x as [a | | |], y as [b | | |]; cbn; intros Hx Hy; try discriminate; try reflexivity.
  unfold Rltb, Rleb. destruct (Rle_dec b a), (Rlt_dec a b); try reflexivity; lra.
Qed.

(** ** Array.prototype.sort *)

Section SortFacts.
Context {A : Type} (comparefn : A -> A -> number).

Lemma sort_insert_perm (x : A) (l : list A) :
  Permutation (sort_insert comparefn x l) (x :: l).
Proof.
  induction l as [| y l IH]; cbn; [reflexivity |].
  destruct (after comparefn x y); [| reflexivity].
  rewrite IH. apply perm_swap.
Qed.

Lemma Array_sort_perm (l : list A) : Permutation (Array_sort comparefn l) l.
Proof.
  induction l as [| x l IH]; cbn; [reflexivity |].
  rewrite sort_insert_perm. now constructor.
Qed.

Lemma Array_sort_length (l : list A) : length (Array_sort comparefn l) = length l.
Proof. apply Permutation_length, Array_sort_perm. Qed.

(** Sortedness, for the elements on which the comparator is a strict
    weak order. *)
Section Sorted.
Variable ok : A -> Prop.
Hypothesis after_asym : forall x y, ok x -> ok y -> after comparefn x y = true -> after comparefn y x = false.
Hypothesis after_trans : forall x y z, ok x -> ok y -> ok z ->
  after comparefn x y = false -> after comparefn y z = false -> after comparefn x z = false.

Lemma sort_insert_sorted (x : A) (l : list A) :
  ok x -> Forall ok l ->
  StronglySorted (fun a b => after comparefn a b = false) l ->
  StronglySorted (fun a b => after comparefn a b = false) (sort_insert comparefn x l).
Proof.
  intros Hx Hl Hs. induction Hs as [| y l Hs IH Hy]; cbn.
  - repeat constructor.
  - inversion Hl as [| ? ? Hoy Hol]; subst.
    destruct (after comparefn x y) eqn:E.
    + constructor; [now apply IH |].
      eapply Permutation_Forall; [symmetry; apply sort_insert_perm |].
      constructor; [now apply after_asym | assumption].
    + constructor; [now constructor |].
      constructor; [assumption |].
      rewrite Forall_forall in Hy, Hol |- *. intros z Hz.
      exact (after_trans x y z Hx Hoy (Hol z Hz) E (Hy z Hz)).
Qed.

Lemma Array_sort_sorted (l : list A) :
  Forall ok l ->
  StronglySorted (fun a b => after comparefn a b = false) (Array_sort comparefn l).
Proof.
  induction 1 as [| x l Hx Hl IH]; cbn; [constructor |].
  apply sort_insert_sorted; try assumption.
  eapply Permutation_Forall; [symmetry; apply Array_sort_perm | assumption].
Qed.
End Sorted.

(** Stability: elements the comparator does not order keep their
    relative positions. *)
Lemma sort_insert_stable (P : A -> bool) (x : A) (l : list A) :
  (forall a b, P a = true -> P b = true -> after comparefn a b = false) ->
  List.filter P (sort_insert comparefn x l) = List.filter P (x :: l).
Proof.
  intros Htie. induction l as [| y l IH]; [reflexivity |].
  cbn [sort_insert]. destruct (after comparefn x y) eqn:E; [| reflexivity].
  cbn [List.filter] in *. rewrite IH.
  destruct (P x) eqn:Px, (P y) eqn:Py; try reflexivity.
  rewrite (Htie x y Px Py) in E; discriminate.
Qed.

Lemma Array_sort_stable (P : A -> bool) (l : list A) :
  (forall a b, P a = true -> P b = true -> after comparefn a b = false) ->
  List.filter P (Array_sort comparefn l) = List.filter P l.
Proof.
  intros Htie. induction l as [| x l IH]; [reflexivity |].
  cbn [Array_sort foldr]. fold (Array_sort comparefn l).
  rewrite sort_insert_stable by assumption.
  cbn [List.filter]. now rewrite IH.
Qed.
End SortFacts.

(** ** Objects keyed by species code *)

Lemma obj_get_set (o : SpeciesFrequency) (k k' : string) (v : SpeciesInfo) :
  obj_get (obj_set o k v) k' = if String.eqb k k' then Some v else obj_get o k'.
Proof.
  induction o as [| [j w] o IH]; cbn.
  - reflexivity.
  - destruct (String.eqb j k) eqn:Ejk; cbn.
    + apply String.eqb_eq in Ejk as ->. now destruct (String.eqb k k').
    + rewrite IH. destruct (String.eqb k k') eqn:Ekk'; [| reflexivity].
      apply String.eqb_eq in Ekk' as <-. now rewrite Ejk.
Qed.

Lemma obj_get_None_keys (o : SpeciesFrequency) (k : string) :
  obj_get o k = None <-> k ∉ map fst o.
Proof.
  induction o as [| [j w] o IH]; cbn.
  - split; [intros _ H; inversion H | reflexivity].
  - destruct (String.eqb j k) eqn:E.
    + apply String.eqb_eq in E as ->. split; [discriminate |].
      intros H; exfalso; apply H; constructor.
    + apply String.eqb_neq in E. rewrite IH, not_elem_of_cons. cbn. split; [auto | intros [_ H]; exact H].
Qed.

Lemma obj_set_keys_new (o : SpeciesFrequency) (k : string) (v : SpeciesInfo) :
  obj_get o k = None -> map fst (obj_set o k v) = map fst o ++ [k].
Proof.
  induction o as [| [j w] o IH]; cbn; [reflexivity |].
  destruct (String.eqb j k); [discriminate |].
  intros H. cbn. now rewrite IH.
Qed.

Lemma obj_set_keys_old (o : SpeciesFrequency) (k : string) (v d : SpeciesInfo) :
  obj_get o k = Some d -> map fst (obj_set o k v) = map fst o.
Proof.
  induction o as [| [j w] o IH]; cbn; [discriminate |].
  destruct (String.eqb j k); [reflexivity |].
  intros H. cbn. now rewrite IH.
Qed.

Lemma total_count_set (o : SpeciesFrequency) (k : string) (v : SpeciesInfo) :
  total_count (obj_set o k v) + count_of o k = total_count o + count v.
Proof.
  unfold total_count, count_of.
  induction o as [| [j w] o IH]; cbn; [lia |].
  destruct (String.eqb j k); cbn; lia.
Qed.

Lemma obj_get_elem (o : SpeciesFrequency) (k : string) (d : SpeciesInfo) :
  NoDup (map fst o) -> (k, d) ∈ o <-> obj_get o k = Some d.
Proof.
  induction o as [| [j w] o IH]; cbn; intros Hnd.
  - split; [intros H; inversion H | discriminate].
  - apply NoDup_cons in Hnd as [Hj Hnd]. rewrite elem_of_cons, IH by assumption.
    destruct (String.eqb j k) eqn:E.
    + apply String.eqb_eq in E as ->. split.
      * intros [[= ->] | H]; [reflexivity |].
        apply obj_get_None_keys in Hj. congruence.
      * intros [= ->]. now left.
    + apply String.eqb_neq in E. split.
      * intros [[= -> ->] | H]; [congruence | assumption].
      * intros H. now right.
Qed.

(** ** The species tally *)

Lemma tally_get (sf : SpeciesFrequency) (obs : Observation) (code : string) :
  count_of (tally sf obs) code =
  count_of sf code + (if String.eqb (speciesCode obs) code then 1 else 0).
Proof.
  unfold tally, count_of.
  destruct (obj_get sf (speciesCode obs)) as [d |] eqn:Eget.
  - rewrite Eget, obj_get_set.
    destruct (String.eqb (speciesCode obs) code) eqn:E; cbn.
    + apply String.eqb_eq in E as <-. rewrite Eget. lia.
    + lia.
  - rewrite obj_get_set, String.eqb_refl, obj_get_set, obj_get_set.
    destruct (String.eqb (speciesCode obs) code) eqn:E; cbn.
    + apply String.eqb_eq in E as <-. rewrite Eget. lia.
    + lia.
Qed.

Lemma tally_keys (sf : SpeciesFrequency) (obs : Observation) :
  NoDup (map fst sf) -> NoDup (map fst (tally sf obs)).
Proof.
  intros Hnd. unfold tally.
  destruct (obj_get sf (speciesCode obs)) as [d |] eqn:Eget.
  - rewrite Eget. now erewrite obj_set_keys_old by eassumption.
  - rewrite obj_get_set, String.eqb_refl.
    erewrite obj_set_keys_old by (rewrite obj_get_set, String.eqb_refl; reflexivity).
    rewrite obj_set_keys_new by assumption.
    apply NoDup_app. split; [assumption |]. split.
    + intros x Hx Hin. apply list_elem_of_singleton in Hin as ->.
      now apply obj_get_None_keys in Eget.
    + apply NoDup_singleton.
Qed.

Lemma tally_total (sf : SpeciesFrequency) (obs : Observation) :
  total_count (tally sf obs) = S (total_count sf).
Proof.
  unfold tally.
  destruct (obj_get sf (speciesCode obs)) as [d |] eqn:Eget.
  - rewrite Eget.
    pose proof (total_count_set sf (speciesCode obs)
      {| commonName := commonName d; scientificName := scientificName d;
         count := S (count d); lastSeen := lastSeen d |}) as H.
    unfold count_of in H; rewrite Eget in H; cbn beta iota in H; cbn [count] in H. lia.
  - rewrite obj_get_set, String.eqb_refl.
    match goal with
    | |- total_count (obj_set (obj_set _ _ ?v0) ?k ?v) = _ =>
        pose proof (total_count_set sf k v0) as H0;
        pose proof (total_count_set (obj_set sf k v0) k v) as H1
    end.
    unfold count_of in H0, H1.
    rewrite Eget in H0. rewrite obj_get_set, String.eqb_refl in H1.
    cbn beta iota in H0, H1; cbn [count] in *. lia.
Qed.

Lemma tally_positive (sf : SpeciesFrequency) (obs : Observation) :
  (forall code d, obj_get sf code = Some d -> 1 <= count d) ->
  forall code d, obj_get (tally sf obs) code = Some d -> 1 <= count d.
Proof.
  intros Hpos code d. unfold tally.
  destruct (obj_get sf (speciesCode obs)) as [d' |] eqn:Eget.
  - rewrite Eget, obj_get_set.
    destruct (String.eqb (speciesCode obs) code); [intros [= <-]; cbn; lia | apply Hpos].
  - rewrite obj_get_set, String.eqb_refl, obj_get_set, obj_get_set.
    destruct (String.eqb (speciesCode obs) code); [intros [= <-]; cbn; lia | apply Hpos].
Qed.

Lemma occurrences_snoc (code : string) (seen : list Observation) (obs : Observation) :
  occurrences code (seen ++ [obs]) =
  occurrences code seen + (if String.eqb (speciesCode obs) code then 1 else 0).
Proof.
  unfold occurrences. rewrite List.filter_app, length_app. cbn.
  now destruct (String.eqb (speciesCode obs) code).
Qed.

(** The invariant of the [forEach] loop. *)
Lemma tally_loop (observations seen : list Observation) (sf : SpeciesFrequency) :
  NoDup (map fst sf) ->
  (forall code, count_of sf code = occurrences code seen) ->
  (forall code d, obj_get sf code = Some d -> 1 <= count d) ->
  total_count sf = length seen ->
  let result := foldl tally sf observations in
  NoDup (map fst result) /\
  (forall code, count_of result code = occurrences code (seen ++ observations)) /\
  (forall code d, obj_get result code = Some d -> 1 <= count d) /\
  total_count result = length (seen ++ observations).
Proof.
  revert seen sf. induction observations as [| obs rest IH]; intros seen sf Hnd Hcnt Hpos Htot.
  - cbn. rewrite app_nil_r. auto.
  - cbn [foldl]. replace (seen ++ obs :: rest) with ((seen ++ [obs]) ++ rest)
      by (now rewrite <- app_assoc).
    apply IH.
    + now apply tally_keys.
    + intros code. now rewrite tally_get, occurrences_snoc, Hcnt.
    + now apply tally_positive.
    + rewrite tally_total, length_app, Htot. cbn. lia.
Qed.

(** ** Summaries built by the pipeline *)

Lemma fetch_invariant (id : string) (observations : list Observation) :
  let hd := fetchHotspotSpecies id (Some observations) in
  NoDup (map fst (species hd)) /\
  (forall code, count_of (species hd) code = occurrences code observations) /\
  (forall code d, obj_get (species hd) code = Some d -> 1 <= count d) /\
  total_count (species hd) = length observations.
Proof.
  apply (tally_loop observations [] []).
  - constructor.
  - reflexivity.
  - discriminate.
  - reflexivity.
Qed.

Lemma fetch_counted (id : string) (response : option (list Observation)) :
  counted (fetchHotspotSpecies id response).
Proof.
  destruct response as [observations |]; [| constructor].
  destruct (fetch_invariant id observations) as (Hnd & _ & Hpos & _).
  apply Forall_forall. intros [code d] Hin.
  apply (Hpos code). now apply obj_get_elem.
Qed.

(** Every summary [processAllHotspots] stores is the one
    [fetchHotspotSpecies] built for that id. *)
Lemma processAllHotspots_lookup (api : string -> option (list Observation))
    (s : State) (id : string) (hd : HotspotData) :
  speciesData (processAllHotspots api s) !! id = Some hd ->
  hd = fetchHotspotSpecies id (api id).
Proof.
  unfold processAllHotspots. cbn [speciesData].
  assert (Hgen : forall (l : list Hotspot) (results : gmap string HotspotData),
             (forall id hd, results !! id = Some hd ->
                            hd = fetchHotspotSpecies id (api id)) ->
             forall id hd,
               foldl (fun results hotspot =>
                        <[locId hotspot :=
                            fetchHotspotSpecies (locId hotspot) (api (locId hotspot))]>
                          results) results l !! id = Some hd ->
               hd = fetchHotspotSpecies id (api id)).
  { induction l as [| h l IH]; intros results Hres id' hd'; cbn [foldl].
    - apply Hres.
    - apply IH. intros id'' hd''. rewrite lookup_insert. case_decide as E.
      + subst id''. now intros [= <-].
      + apply Hres. }
  apply Hgen. intros id' hd'. rewrite lookup_empty. discriminate.
Qed.

Lemma processAllHotspots_counted (api : string -> option (list Observation))
    (s : State) (id : string) (hd : HotspotData) :
  speciesData (processAllHotspots api s) !! id = Some hd -> counted hd.
Proof.
  intros H. apply processAllHotspots_lookup in H as ->. apply fetch_counted.
Qed.

(** ** Evaluating the arithmetic *)

Section Arithmetic.
Local Open Scope R_scope.

Lemma num_div_fin (a b : R) : b <> 0 -> num_div (Fin a) (Fin b) = Fin (a / b).
Proof. intros Hb; cbn. now rewrite (Reqb_false b 0). Qed.

Lemma num_div_zero (a : R) : 0 < a -> num_div (Fin a) (Fin 0) = PosInfinity.
Proof.
  intros Ha; cbn.
  rewrite (Reqb_true 0 0), (Reqb_false a 0), Rltb_true by lra. reflexivity.
Qed.

Lemma num_div_nat (c t : nat) :
  t <> 0%nat -> num_div (num_of_nat c) (num_of_nat t) = Fin (INR c / INR t).
Proof. intros Ht. apply num_div_fin. now apply not_0_INR. Qed.

Lemma num_div_nat_zero (c : nat) :
  c <> 0%nat -> num_div (num_of_nat c) (num_of_nat 0) = PosInfinity.
Proof.
  intros Hc. unfold num_of_nat. cbn [INR]. apply num_div_zero.
  apply lt_0_INR. lia.
Qed.

Lemma Math_sqrt_fin (d : R) : 0 <= d -> Math_sqrt (Fin d) = Fin (sqrt d).
Proof. intros Hd; cbn. now rewrite Rltb_false. Qed.

Lemma num_add_assoc (x y z : number) :
  num_add x (num_add y z) = num_add (num_add x y) z.
Proof. destruct x, y, z; cbn; try reflexivity. f_equal; lra. Qed.

Lemma num_add_0_l (x : number) : num_add (Fin 0) x = x.
Proof. destruct x; cbn; try reflexivity. f_equal; lra. Qed.

(** The left-to-right [reduce] from 0 is the sum of the terms. *)
Lemma reduce_sum {A : Type} (f : A -> number) (l : list A) (acc : number) :
  foldl (fun sum x => num_add sum (f x)) acc l = num_add acc (num_sum (map f l)).
Proof.
  revert acc. induction l as [| x l IH]; intros acc; cbn.
  - destruct acc; cbn; try reflexivity. f_equal; lra.
  - rewrite IH. fold (num_sum (map f l)). now rewrite num_add_assoc.
Qed.


(** [toFixed] on a non-negative number below 10^21. *)
Lemma toFixed_decimal (r : R) (f : nat) (n : Z) :
  0 <= r < 10 ^ 21 ->
  IZR n <= r * 10 ^ f + / 2 < IZR n + 1 ->
  toFixed (Fin r) f = Decimal f n.
Proof.
  intros [Hr0 Hr1] Hn. unfold toFixed.
  rewrite Rabs_pos_eq, Rleb_false, Rltb_false by lra.
  unfold nearest_integer. now rewrite (Zfloor_eq n).
Qed.

Lemma toFixed_zero (f : nat) : toFixed (Fin 0) f = Decimal f 0.
Proof.
  apply toFixed_decimal.
  - split; [lra | apply pow_lt; lra].
  - rewrite Rmult_0_l. split; lra.
Qed.

Lemma scoreOf_zero (e : number) : scoreOf (Fin 0) e = e.
Proof. unfold scoreOf; cbn. now rewrite Rltb_false by lra. Qed.

Lemma scoreOf_pos (d : R) (e : number) :
  0 < d -> scoreOf (Fin d) e = num_div e (Fin (sqrt d)).
Proof.
  intros Hd. unfold scoreOf; cbn [num_gt].
  rewrite Rltb_true, Math_sqrt_fin by lra. reflexivity.
Qed.

Lemma distanceOf_center (region : Region) (h : Hotspot) :
  lat h = centerLat region -> lng h = centerLng region ->
  distanceOf region h = Fin 0.
Proof.
  intros Hlat Hlng. unfold distanceOf.
  now rewrite Hlat, Hlng, calculateDistance_diag.
Qed.
End Arithmetic.

(** ** Expected value in exact arithmetic *)

Section Expected.
Local Open Scope R_scope.

Lemma expected_sum (hd : HotspotData) (entries : list (string * SpeciesInfo)) :
  expectedNewSpeciesOf hd entries =
  num_sum (map (fun entry => probabilityOf hd entry.2) entries).
Proof.
  unfold expectedNewSpeciesOf.
  rewrite (reduce_sum (fun entry => probabilityOf hd entry.2)).
  apply num_add_0_l.
Qed.

Lemma expected_rate_sum (hd : HotspotData) (entries : list (string * SpeciesInfo)) :
  totalChecklists hd <> 0%nat ->
  expectedNewSpeciesOf hd entries = Fin (rate_sum (totalChecklists hd) entries).
Proof.
  intros Ht. rewrite expected_sum.
  induction entries as [| e l IH]; [reflexivity |].
  change (num_add (probabilityOf hd e.2)
            (num_sum (map (fun entry => probabilityOf hd entry.2) l)) =
          Fin (INR (count e.2) / INR (totalChecklists hd) +
               rate_sum (totalChecklists hd) l)).
  rewrite IH. unfold probabilityOf. now rewrite num_div_nat.
Qed.

Lemma rate_sum_total (t : nat) (entries : list (string * SpeciesInfo)) :
  rate_sum t entries = INR (total_count entries) / INR t.
Proof.
  induction entries as [| e l IH].
  - cbn. unfold Rdiv; now rewrite Rmult_0_l.
  - change (INR (count e.2) / INR t + rate_sum t l =
            INR (count e.2 + total_count l) / INR t).
    rewrite IH, plus_INR. unfold Rdiv; ring.
Qed.

End Expected.

(** ** Evaluating [recommend] *)

Ltac compute_new_species :=
  repeat match goal with
  | |- context [newSpeciesOf ?l ?h] =>
      let v := eval vm_compute in (newSpeciesOf l h) in
      change (newSpeciesOf l h) with v
  end.

(** ** The zero-checklist case *)

Lemma recommend_Some (region : Region) (sd : gmap string HotspotData)
    (ll : gset string) (h : Hotspot) (r : Recommendation) :
  recommend region sd ll h = Some r ->
  exists hd, sd !! locId h = Some hd /\
    r = {| hotspot := h;
           newSpeciesCount := length (newSpeciesOf ll hd);
           expectedNewSpecies :=
             toFixed (expectedNewSpeciesOf hd (newSpeciesOf ll hd)) 1;
           distance := toFixed (distanceOf region h) 1;
           score := toFixed (rawScore region ll h hd) 2;
           topNewSpecies :=
             map (topSpeciesOf hd)
                 (take 5 (Array_sort byCountDesc (newSpeciesOf ll hd))) |}.
Proof.
  unfold recommend. destruct (sd !! locId h) as [hd |]; [| discriminate].
  intros [= <-]. now exists hd.
Qed.

Lemma distanceOf_nonneg (region : Region) (h : Hotspot) :
  exists d, distanceOf region h = Fin d /\ (0 <= d)%R.
Proof. eexists; split; [reflexivity | apply calculateDistance_nonneg]. Qed.

Lemma scoreOf_zero_expected (d : R) : (0 <= d)%R -> scoreOf (Fin d) (Fin 0) = Fin 0.
Proof.
  intros [Hd | <-]; [| apply scoreOf_zero].
  rewrite scoreOf_pos by assumption.
  rewrite num_div_fin by (apply Rgt_not_eq, sqrt_lt_R0; assumption).
  f_equal. unfold Rdiv. apply Rmult_0_l.
Qed.

(** A summary built by [fetchHotspotSpecies] with no checklist has no
    species entry. *)
Lemma fetch_zero_empty (id : string) (response : option (list Observation)) :
  totalChecklists (fetchHotspotSpecies id response) = 0 ->
  species (fetchHotspotSpecies id response) = [].
Proof.
  destruct response as [[| obs rest] |]; cbn; try reflexivity; discriminate.
Qed.

(** C1, counterexample: a summary with no checklist and one species entry
    not on the life list.  The division [3 / 0] is carried out and the
    recommendation shows [Infinity] for the expected value and the score. *)
Lemma zero_checklists_infinity :
  zero_data !! "L0" = Some (summary "L0" [("blujay", info "Blue Jay" 3)] 0) /\
  recommend CHICAGO_WEST zero_data ∅ (at_center "L0") =
    Some {| hotspot := at_center "L0";
            newSpeciesCount := 1;
            expectedNewSpecies := StrInfinity;
            distance := Decimal 1 0;
            score := StrInfinity;
            topNewSpecies := [ {| name := "Blue Jay"; probability := StrInfinity |} ] |}.
Proof.
  split; [reflexivity |].
  unfold recommend.
  change (zero_data !! locId (at_center "L0"))
    with (Some (summary "L0" [("blujay", info "Blue Jay" 3)] 0)).
  cbv beta iota zeta. compute_new_species.
  rewrite distanceOf_center by reflexivity.
  rewrite scoreOf_zero, toFixed_zero.
  unfold expectedNewSpeciesOf, topSpeciesOf, probabilityOf.
  cbn [Array_sort foldr foldl sort_insert take map length snd count
       totalChecklists summary commonName].
  rewrite num_div_nat_zero by lia.
  cbn [num_add num_mul toFixed]. rewrite Reqb_false, Rltb_true by lra. reflexivity.
Qed.

Lemma newSpeciesOf_nil (ll : gset string) (hd : HotspotData) :
  Forall (fun entry => entry.1 ∈ ll) (species hd) -> newSpeciesOf ll hd = [].
Proof.
  unfold newSpeciesOf. induction 1 as [| e l He Hl IH]; cbn; [reflexivity |].
  now rewrite bool_decide_eq_true_2.
Qed.

(** C1, amended: with no checklist and no species entry outside the life
    list, the recommendation shows an expected value of 0.0 and a score of
    0.00, no new species and an empty top list, and neither Infinity nor
    NaN.  This covers every summary [fetchHotspotSpecies] builds with no
    checklist, whose species table is empty. *)
Theorem zero_checklists_no_new_species :
  (forall (region : Region) (sd : gmap string HotspotData) (ll : gset string)
          (h : Hotspot) (hd : HotspotData) (r : Recommendation),
      sd !! locId h = Some hd ->
      totalChecklists hd = 0 ->
      Forall (fun entry => entry.1 ∈ ll) (species hd) ->
      recommend region sd ll h = Some r ->
      newSpeciesCount r = 0 /\
      expectedNewSpecies r = Decimal 1 0 /\
      score r = Decimal 2 0 /\
      topNewSpecies r = []) /\
  (forall (id : string) (response : option (list Observation)),
      totalChecklists (fetchHotspotSpecies id response) = 0 ->
      species (fetchHotspotSpecies id response) = []).
Proof.
  split; [| exact fetch_zero_empty].
  intros region sd ll h hd r Hsd _ Hall Hr.
  apply recommend_Some in Hr as (hd' & Hsd' & ->).
  rewrite Hsd in Hsd'; injection Hsd' as <-.
  unfold rawScore. rewrite (newSpeciesOf_nil ll hd Hall).
  cbn [newSpeciesCount expectedNewSpecies score topNewSpecies length
       expectedNewSpeciesOf foldl Array_sort foldr take map].
  destruct (distanceOf_nonneg region h) as (d & -> & Hd).
  rewrite scoreOf_zero_expected by assumption.
  now rewrite !toFixed_zero.
Qed.

Lemma zero_checklists_no_new_species_witness :
  exists r,
    recommend CHICAGO_WEST {[ "L0" := fetchHotspotSpecies "L0" None ]} ∅
              (at_center "L0") = Some r /\
    newSpeciesCount r = 0 /\
    expectedNewSpecies r = Decimal 1 0 /\
    score r = Decimal 2 0 /\
    topNewSpecies r = [].
Proof.
  eexists. split; [reflexivity |].
  apply (proj1 zero_checklists_no_new_species CHICAGO_WEST
           {[ "L0" := fetchHotspotSpecies "L0" None ]} ∅ (at_center "L0")
           (fetchHotspotSpecies "L0" None)).
  - reflexivity.
  - reflexivity.
  - constructor.
  - reflexivity.
Defined.

Ltac real_arith := cbn [pow INR]; lra.

Lemma newSpeciesOf_spec (ll : gset string) (hd : HotspotData) (entry : string * SpeciesInfo) :
  entry ∈ newSpeciesOf ll hd <-> entry ∈ species hd /\ entry.1 ∉ ll.
Proof.
  unfold newSpeciesOf. rewrite !list_elem_of_In, List.filter_In.
  rewrite negb_true_iff, bool_decide_eq_false. reflexivity.
Qed.

Lemma filter_partition {A : Type} (P : A -> bool) (l : list A) :
  Permutation (List.filter (fun x => negb (P x)) l ++ List.filter P l) l.
Proof.
  induction l as [| x l IH]; cbn; [reflexivity |].
  destruct (P x); cbn.
  - rewrite <- Permutation_middle. now constructor.
  - now constructor.
Qed.

(** ** Top new species *)

Lemma after_byCountDesc (a b : string * SpeciesInfo) :
  after byCountDesc a b = (count a.2 <? count b.2).
Proof.
  unfold after, byCountDesc, num_sub, num_of_nat. cbn [num_neg num_add num_gt].
  destruct (Nat.ltb_spec (count a.2) (count b.2)) as [Hlt | Hge].
  - apply Rltb_true. apply lt_INR in Hlt. lra.
  - apply Rltb_false. apply le_INR in Hge. lra.
Qed.

Lemma Array_sort_byCountDesc_sorted (l : list (string * SpeciesInfo)) :
  StronglySorted (fun a b => count b.2 <= count a.2) (Array_sort byCountDesc l).
Proof.
  assert (H : StronglySorted (fun a b => after byCountDesc a b = false)
                (Array_sort byCountDesc l)).
  { apply (Array_sort_sorted byCountDesc (fun _ => True)).
    - intros x y _ _. rewrite !after_byCountDesc, Nat.ltb_lt, Nat.ltb_ge. lia.
    - intros x y z _ _ _. rewrite !after_byCountDesc, !Nat.ltb_ge. lia.
    - now apply Forall_forall. }
  revert H. generalize (Array_sort byCountDesc l). intros s.
  induction 1 as [| x s Hs IH Hx]; constructor; [assumption |].
  eapply Forall_impl; [exact Hx |].
  intros y. cbn beta. rewrite after_byCountDesc, Nat.ltb_ge. auto.
Qed.

Lemma Array_sort_byCountDesc_stable (c : nat) (l : list (string * SpeciesInfo)) :
  List.filter (fun entry => count entry.2 =? c) (Array_sort byCountDesc l) =
  List.filter (fun entry => count entry.2 =? c) l.
Proof.
  apply Array_sort_stable. intros a b Ha Hb.
  apply Nat.eqb_eq in Ha, Hb. rewrite after_byCountDesc, Nat.ltb_ge. lia.
Qed.



(** ** Ranking *)

Lemma recommend_eq (region : Region) (sd : gmap string HotspotData)
    (ll : gset string) (h : Hotspot) (hd : HotspotData) :
  sd !! locId h = Some hd ->
  recommend region sd ll h =
    Some {| hotspot := h;
            newSpeciesCount := length (newSpeciesOf ll hd);
            expectedNewSpecies :=
              toFixed (expectedNewSpeciesOf hd (newSpeciesOf ll hd)) 1;
            distance := toFixed (distanceOf region h) 1;
            score := toFixed (rawScore region ll h hd) 2;
            topNewSpecies :=
              map (topSpeciesOf hd)
                  (take 5 (Array_sort byCountDesc (newSpeciesOf ll hd))) |}.
Proof. intros H. unfold recommend. now rewrite H. Qed.

Lemma recommend_None (region : Region) (sd : gmap string HotspotData)
    (ll : gset string) (h : Hotspot) :
  sd !! locId h = None -> recommend region sd ll h = None.
Proof. intros H. unfold recommend. now rewrite H. Qed.

Lemma toFixed_parse_nan (x : number) (f : nat) :
  is_nan (parseFloat (toFixed x f)) = is_nan x.
Proof.
  destruct x as [r | | |]; try reflexivity.
  unfold toFixed. destruct (Rleb (10 ^ 21) (Rabs r)); [reflexivity |].
  destruct (Rltb r 0); reflexivity.
Qed.

Section ExpectedShape.
Local Open Scope R_scope.

Lemma rate_sum_nonneg (t : nat) (entries : list (string * SpeciesInfo)) :
  0 <= rate_sum t entries.
Proof.
  rewrite rate_sum_total. unfold Rdiv.
  apply Rmult_le_pos; [apply pos_INR |].
  destruct t; [cbn; rewrite Rinv_0; lra |].
  left. apply Rinv_0_lt_compat, lt_0_INR. lia.
Qed.

Lemma expected_shape (hd : HotspotData) (entries : list (string * SpeciesInfo)) :
  Forall (fun entry => (1 <= count entry.2)%nat) entries ->
  nonneg_or_infinite (expectedNewSpeciesOf hd entries).
Proof.
  intros Hpos. destruct (Nat.eq_dec (totalChecklists hd) 0%nat) as [Hz | Hnz].
  - rewrite expected_sum. unfold probabilityOf. rewrite Hz.
    induction Hpos as [| e l He Hl IH].
    + left. exists 0. split; [reflexivity | lra].
    + right.
      change (num_add (num_div (num_of_nat (count e.2)) (num_of_nat 0%nat))
                (num_sum (map (fun entry =>
                                 num_div (num_of_nat (count entry.2))
                                         (num_of_nat 0%nat)) l)) = PosInfinity).
      rewrite num_div_nat_zero by lia.
      destruct IH as [(a & -> & _) | ->]; reflexivity.
  - left. exists (rate_sum (totalChecklists hd) entries). split.
    + now apply expected_rate_sum.
    + apply rate_sum_nonneg.
Qed.

Lemma scoreOf_shape (d : R) (e : number) :
  0 <= d -> nonneg_or_infinite e -> nonneg_or_infinite (scoreOf (Fin d) e).
Proof.
  intros [Hd | <-] He; [| now rewrite scoreOf_zero].
  rewrite scoreOf_pos by assumption.
  assert (Hs : 0 < sqrt d) by now apply sqrt_lt_R0.
  destruct He as [(a & -> & Ha) | ->].
  - left. exists (a / sqrt d). split.
    + apply num_div_fin. lra.
    + unfold Rdiv. apply Rmult_le_pos; [assumption |].
      left. now apply Rinv_0_lt_compat.
  - right. cbn. now rewrite Rleb_true by lra.
Qed.

Lemma nonneg_or_infinite_not_nan (x : number) :
  nonneg_or_infinite x -> is_nan x = false.
Proof. intros [(a & -> & _) | ->]; reflexivity. Qed.
End ExpectedShape.

Lemma counted_newSpecies (ll : gset string) (hd : HotspotData) :
  counted hd -> Forall (fun entry => 1 <= count entry.2) (newSpeciesOf ll hd).
Proof.
  unfold counted, newSpeciesOf. rewrite !Forall_forall.
  intros H e He. apply H. rewrite list_elem_of_In in He |- *.
  now apply List.filter_In in He.
Qed.

Lemma rawScore_shape (region : Region) (ll : gset string) (h : Hotspot)
    (hd : HotspotData) :
  counted hd -> nonneg_or_infinite (rawScore region ll h hd).
Proof.
  intros Hc. unfold rawScore, distanceOf.
  apply scoreOf_shape; [apply calculateDistance_nonneg |].
  apply expected_shape. now apply counted_newSpecies.
Qed.

(** The comparator of the ranking, on scores that are numbers. *)
Lemma after_byScoreDesc (a b : Recommendation) :
  is_nan (parseFloat (score a)) = false ->
  is_nan (parseFloat (score b)) = false ->
  after byScoreDesc a b = num_gt (parseFloat (score b)) (parseFloat (score a)).
Proof. intros Ha Hb. unfold after, byScoreDesc. now apply num_gt_sub. Qed.

Lemma after_byScoreDesc_tie (a b : Recommendation) :
  parseFloat (score a) = parseFloat (score b) -> after byScoreDesc a b = false.
Proof.
  intros H. unfold after, byScoreDesc. rewrite H.
  destruct (parseFloat (score b)) as [x | | |]; try reflexivity.
  cbn. apply Rltb_false. lra.
Qed.

Lemma omap_recommend_scores (region : Region) (sd : gmap string HotspotData)
    (ll : gset string) (hotspots : list Hotspot) :
  (forall id hd, sd !! id = Some hd -> counted hd) ->
  Forall (fun r => is_nan (parseFloat (score r)) = false)
         (omap (recommend region sd ll) hotspots).
Proof.
  intros Hc. apply Forall_forall. intros r Hr.
  apply list_elem_of_omap in Hr as (h & _ & Hr).
  apply recommend_Some in Hr as (hd & Hsd & ->). cbn [score].
  rewrite toFixed_parse_nan. apply nonneg_or_infinite_not_nan, rawScore_shape.
  eapply Hc; eassumption.
Qed.

Lemma rank_sorted_numbers (region : Region) (sd : gmap string HotspotData)
    (ll : gset string) (hotspots : list Hotspot) :
  Forall (fun r => is_nan (parseFloat (score r)) = false)
         (omap (recommend region sd ll) hotspots) ->
  StronglySorted
    (fun a b => num_ge (parseFloat (score a)) (parseFloat (score b)) = true)
    (rank region sd ll hotspots).
Proof.
  intros Hok. unfold rank.
  set (recs := omap (recommend region sd ll) hotspots) in *.
  assert (Hs : StronglySorted (fun a b => after byScoreDesc a b = false)
                 (Array_sort byScoreDesc recs)).
  { apply (Array_sort_sorted byScoreDesc
             (fun r => is_nan (parseFloat (score r)) = false)); [| | assumption].
    - intros x y Hx Hy. rewrite !after_byScoreDesc by assumption. apply num_gt_asym.
    - intros x y z Hx Hy Hz. rewrite !after_byScoreDesc by assumption.
      intros H1 H2. now apply (num_gt_trans_neg _ (parseFloat (score y))). }
  assert (Hok' : Forall (fun r => is_nan (parseFloat (score r)) = false)
                   (Array_sort byScoreDesc recs)).
  { eapply Permutation_Forall; [symmetry; apply Array_sort_perm | assumption]. }
  revert Hs Hok'. generalize (Array_sort byScoreDesc recs). intros s.
  induction 1 as [| x s Hs IH Hx]; intros Hok'; constructor.
  - apply IH. now inversion Hok'.
  - inversion Hok' as [| ? ? Hox Hos]; subst.
    rewrite Forall_forall in Hx, Hos |- *. intros y Hy.
    specialize (Hx y Hy). specialize (Hos y Hy).
    rewrite after_byScoreDesc in Hx by assumption.
    rewrite num_ge_not_gt by assumption. now rewrite Hx.
Qed.

Lemma rank_sorted (region : Region) (sd : gmap string HotspotData)
    (ll : gset string) (hotspots : list Hotspot) :
  (forall id hd, sd !! id = Some hd -> counted hd) ->
  StronglySorted
    (fun a b => num_ge (parseFloat (score a)) (parseFloat (score b)) = true)
    (rank region sd ll hotspots).
Proof.
  intros Hc. apply rank_sorted_numbers. now apply omap_recommend_scores.
Qed.

Lemma rawScore_at_center (id : string) (ll : gset string) (hd : HotspotData) :
  rawScore CHICAGO_WEST ll (at_center id) hd =
  expectedNewSpeciesOf hd (newSpeciesOf ll hd).
Proof.
  unfold rawScore. rewrite distanceOf_center by reflexivity. apply scoreOf_zero.
Qed.

Lemma ranking_example :
  map (fun r => (locId (hotspot r), score r))
      (rank CHICAGO_WEST ranking_data ∅ [at_center "A"; at_center "B"]) =
  [("B", Decimal 2 250); ("A", Decimal 2 100)].
Proof.
  unfold rank. cbn [omap list_omap].
  rewrite (recommend_eq _ _ _ (at_center "A")
             (summary "A" [("blujay", info "Blue Jay" 1)] 1)) by reflexivity.
  rewrite (recommend_eq _ _ _ (at_center "B")
             (summary "B" [("blujay", info "Blue Jay" 3);
                           ("norcad", info "Northern Cardinal" 2)] 2)) by reflexivity.
  rewrite !rawScore_at_center. compute_new_species.
  rewrite !expected_rate_sum by (cbn; lia).
  cbn [rate_sum foldr snd count totalChecklists summary].
  rewrite (toFixed_decimal _ 2 100) by (split; real_arith).
  rewrite (toFixed_decimal _ 2 250) by (split; real_arith).
  cbn [Array_sort foldr sort_insert]. unfold after, byScoreDesc.
  cbn [score parseFloat num_sub num_neg num_add num_gt].
  rewrite Rltb_true by real_arith.
  reflexivity.
Qed.

Lemma close_example :
  map (fun r => (locId (hotspot r), score r))
      (rank CHICAGO_WEST close_data {[ "norcad" ]} [at_center "A"; at_center "B"]) =
  [("A", Decimal 2 31); ("B", Decimal 2 31)].
Proof.
  unfold rank. cbn [omap list_omap].
  rewrite (recommend_eq _ _ _ (at_center "A")
             (summary "A" [("norcad", info "Northern Cardinal" 9);
                           ("blujay", info "Blue Jay" 4)] 13)) by reflexivity.
  rewrite (recommend_eq _ _ _ (at_center "B")
             (summary "B" [("norcad", info "Northern Cardinal" 11);
                           ("blujay", info "Blue Jay" 5)] 16)) by reflexivity.
  rewrite !rawScore_at_center. compute_new_species.
  rewrite !expected_rate_sum by (cbn; lia).
  cbn [rate_sum foldr snd count totalChecklists summary].
  rewrite !(toFixed_decimal _ 2 31) by (split; real_arith).
  cbn [Array_sort foldr sort_insert]. unfold after, byScoreDesc.
  cbn [score parseFloat num_sub num_neg num_add num_gt].
  rewrite Rltb_false by real_arith.
  reflexivity.
Qed.

Lemma nan_example :
  map (fun r => (locId (hotspot r), score r))
      (rank CHICAGO_WEST nan_data ∅ [at_center "Z"; at_center "A"]) =
  [("Z", StrNaN); ("A", Decimal 2 100)].
Proof.
  unfold rank. cbn [omap list_omap].
  rewrite (recommend_eq _ _ _ (at_center "Z")
             (summary "Z" [("blujay", info "Blue Jay" 0)] 0)) by reflexivity.
  rewrite (recommend_eq _ _ _ (at_center "A")
             (summary "A" [("blujay", info "Blue Jay" 1)] 1)) by reflexivity.
  rewrite !rawScore_at_center. compute_new_species.
  rewrite (expected_rate_sum (summary "A" _ 1)) by (cbn; lia).
  cbn [rate_sum foldr snd count totalChecklists summary].
  rewrite (toFixed_decimal _ 2 100) by (split; real_arith).
  unfold expectedNewSpeciesOf, probabilityOf, num_of_nat.
  cbn [foldl snd count totalChecklists summary info INR num_div].
  rewrite Reqb_true by reflexivity.
  cbn [num_add toFixed].
  cbn [Array_sort foldr sort_insert]. unfold after, byScoreDesc.
  cbn [score parseFloat num_sub num_neg num_add num_gt].
  reflexivity.
Qed.

(** C2, counterexample.  Two hotspots at the centre with unrounded scores
    4/13 = 0.3077 and 5/16 = 0.3125: both scores are rendered "0.31", the
    comparator sees a tie and the output keeps the input order, so the
    hotspot ranked first has the smaller score.  And a hotspot whose
    summary has no checklist and a species entry of count 0: its score is
    0/0, shown as "NaN", every comparison with it gives [NaN], which the
    sort takes for a tie, and it stays in front of a hotspot scoring
    1.00. *)
Lemma ranking_not_by_unrounded_score :
  (close_data !! "A" = Some (summary "A" [("norcad", info "Northern Cardinal" 9);
                                          ("blujay", info "Blue Jay" 4)] 13) /\
   close_data !! "B" = Some (summary "B" [("norcad", info "Northern Cardinal" 11);
                                          ("blujay", info "Blue Jay" 5)] 16) /\
   map (fun r => (locId (hotspot r), score r))
       (rank CHICAGO_WEST close_data {[ "norcad" ]} [at_center "A"; at_center "B"]) =
     [("A", Decimal 2 31); ("B", Decimal 2 31)] /\
   rawScore CHICAGO_WEST {[ "norcad" ]} (at_center "A")
            (summary "A" [("norcad", info "Northern Cardinal" 9);
                          ("blujay", info "Blue Jay" 4)] 13) = Fin (4 / 13) /\
   rawScore CHICAGO_WEST {[ "norcad" ]} (at_center "B")
            (summary "B" [("norcad", info "Northern Cardinal" 11);
                          ("blujay", info "Blue Jay" 5)] 16) = Fin (5 / 16) /\
   num_ge (Fin (4 / 13)) (Fin (5 / 16)) = false) /\
  (nan_data !! "Z" = Some (summary "Z" [("blujay", info "Blue Jay" 0)] 0) /\
   nan_data !! "A" = Some (summary "A" [("blujay", info "Blue Jay" 1)] 1) /\
   map (fun r => (locId (hotspot r), score r))
       (rank CHICAGO_WEST nan_data ∅ [at_center "Z"; at_center "A"]) =
     [("Z", StrNaN); ("A", Decimal 2 100)] /\
   num_ge (parseFloat StrNaN) (parseFloat (Decimal 2 100)) = false).
Proof.
  split.
  - split; [reflexivity |]. split; [reflexivity |]. split; [exact close_example |].
    split; [| split].
    + rewrite rawScore_at_center. compute_new_species.
      rewrite expected_rate_sum by (cbn; lia). f_equal.
      cbn [rate_sum foldr snd count totalChecklists summary]. real_arith.
    + rewrite rawScore_at_center. compute_new_species.
      rewrite expected_rate_sum by (cbn; lia). f_equal.
      cbn [rate_sum foldr snd count totalChecklists summary]. real_arith.
    + cbn. apply Rleb_false. lra.
  - split; [reflexivity |]. split; [reflexivity |]. split; [exact nan_example |].
    reflexivity.
Qed.

(** C2, amended: when no recommendation has the score [NaN], the output is
    sorted in descending order of the score it shows, the unrounded score
    rendered with two decimals; it is a rearrangement of the
    recommendations in input order in which recommendations showing the
    same score keep their input order.  No score is [NaN] when every
    species entry records at least one observation, hence in every state
    [processAllHotspots] produces.  For scores 2.5 and 1.0 the hotspot
    scoring 2.5 comes first. *)
Theorem ranking_sorted_by_shown_score :
  (forall (region : Region) (sd : gmap string HotspotData) (ll : gset string)
          (hotspots : list Hotspot),
      let recs := omap (recommend region sd ll) hotspots in
      let out := rank region sd ll hotspots in
      Forall (fun r => is_nan (parseFloat (score r)) = false) recs ->
      StronglySorted
        (fun a b => num_ge (parseFloat (score a)) (parseFloat (score b)) = true) out /\
      Permutation out recs /\
      (forall P : Recommendation -> bool,
          (forall a b, P a = true -> P b = true ->
                       parseFloat (score a) = parseFloat (score b)) ->
          List.filter P out = List.filter P recs)) /\
  (forall (region : Region) (sd : gmap string HotspotData) (ll : gset string)
          (hotspots : list Hotspot),
      (forall id hd, sd !! id = Some hd -> counted hd) ->
      Forall (fun r => is_nan (parseFloat (score r)) = false)
             (omap (recommend region sd ll) hotspots)) /\
  (forall (region : Region) (api : string -> option (list Observation)) (s : State),
      StronglySorted
        (fun a b => num_ge (parseFloat (score a)) (parseFloat (score b)) = true)
        (recommendations (calculateRecommendations region (processAllHotspots api s)))) /\
  map (fun r => (locId (hotspot r), score r))
      (rank CHICAGO_WEST ranking_data ∅ [at_center "A"; at_center "B"]) =
  [("B", Decimal 2 250); ("A", Decimal 2 100)].
Proof.
  split; [| split; [| split; [| exact ranking_example]]].
  - intros region sd ll hotspots. cbv zeta. intros Hok.
    split; [now apply rank_sorted_numbers |].
    split; [apply Array_sort_perm |].
    intros P Htie. apply Array_sort_stable.
    intros a b Ha Hb. apply after_byScoreDesc_tie. now apply Htie.
  - intros region sd ll hotspots Hc. now apply omap_recommend_scores.
  - intros region api s. cbn [calculateRecommendations recommendations].
    apply rank_sorted. intros id hd. apply processAllHotspots_counted.
Qed.

Lemma ranking_sorted_by_shown_score_witness :
  Forall (fun r => is_nan (parseFloat (score r)) = false)
         (omap (recommend CHICAGO_WEST ranking_data ∅)
               [at_center "A"; at_center "B"]) /\
  StronglySorted
    (fun a b => num_ge (parseFloat (score a)) (parseFloat (score b)) = true)
    (rank CHICAGO_WEST ranking_data ∅ [at_center "A"; at_center "B"]).
Proof.
  assert (Hc : forall id hd, ranking_data !! id = Some hd -> counted hd).
  { intros id hd. unfold ranking_data.
    rewrite lookup_insert. case_decide as Ha.
    - intros [= <-]. repeat constructor.
    - rewrite lookup_singleton. case_decide as Hb; [| discriminate].
      intros [= <-]. repeat constructor. }
  assert (Hok : Forall (fun r => is_nan (parseFloat (score r)) = false)
                  (omap (recommend CHICAGO_WEST ranking_data ∅)
                        [at_center "A"; at_center "B"])).
  { now apply omap_recommend_scores. }
  split; [exact Hok |].
  exact (proj1 (proj1 ranking_sorted_by_shown_score CHICAGO_WEST ranking_data ∅
                  [at_center "A"; at_center "B"] Hok)).
Defined.

(** ** Hotspots without a summary *)

Lemma omap_recommend_hotspots (region : Region) (sd : gmap string HotspotData)
    (ll : gset string) (hotspots : list Hotspot) :
  map hotspot (omap (recommend region sd ll) hotspots) =
  List.filter (fun h => bool_decide (is_Some (sd !! locId h))) hotspots.
Proof.
  induction hotspots as [| h l IH]; [reflexivity |].
  cbn [omap list_omap List.filter].
  destruct (sd !! locId h) as [hd |] eqn:E.
  - rewrite (recommend_eq _ _ _ _ hd E).
    rewrite bool_decide_eq_true_2 by (now exists hd).
    cbn [map hotspot]. f_equal. exact IH.
  - rewrite (recommend_None _ _ _ _ E).
    rewrite bool_decide_eq_false_2 by (intros [? ?]; discriminate).
    exact IH.
Qed.

(** ** Arrays as heap objects *)

Lemma heap_lookup_fresh (heap ext : Heap) (k : nat) :
  (heap ++ ext) !! (length heap + k) = ext !! k.
Proof. rewrite lookup_app_r by lia. f_equal. lia. Qed.

Lemma heap_insert_fresh (heap ext : Heap) (k : nat) (a : JSArray) :
  <[length heap + k := a]> (heap ++ ext) = heap ++ <[k := a]> ext.
Proof. apply insert_app_r. Qed.

Lemma heap_lookup_first (heap ext : Heap) :
  (heap ++ ext) !! length heap = ext !! 0.
Proof. rewrite <- (Nat.add_0_r (length heap)). apply heap_lookup_fresh. Qed.

Lemma heap_insert_first (heap ext : Heap) (a : JSArray) :
  <[length heap := a]> (heap ++ ext) = heap ++ <[0 := a]> ext.
Proof. rewrite <- (Nat.add_0_r (length heap)) at 1. apply heap_insert_fresh. Qed.

Ltac heap_simpl :=
  repeat (progress (rewrite ?length_app, <- ?app_assoc, ?heap_lookup_first,
                      ?heap_lookup_fresh, ?heap_insert_first, ?heap_insert_fresh;
                    cbn [length app lookup list_lookup insert list_insert])).

Lemma recommend_on_heap_spec (region : Region) (sd : gmap string HotspotData)
    (ll : gset string) (h : Hotspot) (heap : Heap) :
  exists ext, recommend_on_heap region sd ll h heap =
              (recommend region sd ll h, heap ++ ext).
Proof.
  unfold recommend_on_heap, recommend.
  destruct (sd !! locId h) as [hd |].
  - eexists.
    unfold mbind, mret, Run_bind, Run_ret, new_array, set_array, entries_at, tops_at.
    cbn beta iota. heap_simpl.
    reflexivity.
  - exists []. now rewrite app_nil_r.
Qed.

Lemma for_each_recommend_spec (region : Region) (sd : gmap string HotspotData)
    (ll : gset string) (hotspots : list Hotspot) (heap : Heap) :
  exists ext, for_each (recommend_on_heap region sd ll) hotspots heap =
              (map (recommend region sd ll) hotspots, heap ++ ext).
Proof.
  revert heap. induction hotspots as [| h l IH]; intros heap.
  - exists []. now rewrite app_nil_r.
  - cbn [for_each map]. unfold mbind, mret, Run_bind, Run_ret.
    destruct (recommend_on_heap_spec region sd ll h heap) as [ext1 ->].
    destruct (IH (heap ++ ext1)) as [ext2 ->].
    exists (ext1 ++ ext2). now rewrite app_assoc.
Qed.

Lemma omap_id_map {A B : Type} (f : A -> option B) (l : list A) :
  omap (fun r => r) (map f l) = omap f l.
Proof.
  induction l as [| x l IH]; [reflexivity |].
  cbn. destruct (f x); now rewrite IH.
Qed.

Lemma rank_on_heap_spec (region : Region) (sd : gmap string HotspotData)
    (ll : gset string) (hs : Ref) (hotspots : list Hotspot) (heap : Heap) :
  heap !! hs = Some (HotspotArray hotspots) ->
  exists ext recs,
    rank_on_heap region hs sd ll heap = (recs, heap ++ ext) /\
    heap !! recs = None /\
    (heap ++ ext) !! recs = Some (RecommendationArray (rank region sd ll hotspots)).
Proof.
  intros Hhs. unfold rank_on_heap, rank.
  unfold mbind, mret, Run_bind, Run_ret, hotspots_at.
  cbn beta iota. rewrite Hhs.
  destruct (for_each_recommend_spec region sd ll hotspots heap) as [ext ->].
  unfold new_array, set_array, nullables_at, recommendations_at. cbn beta iota.
  set (base := heap ++ ext). heap_simpl. rewrite omap_id_map.
  exists (ext ++ [NullableArray (map (recommend region sd ll) hotspots);
                  RecommendationArray
                    (Array_sort byScoreDesc (omap (recommend region sd ll) hotspots))]).
  exists (length base + 1).
  rewrite app_assoc. fold base.
  split; [reflexivity |]. split.
  - apply lookup_ge_None. unfold base. rewrite length_app. lia.
  - now heap_simpl.
Qed.

(** C9: run on a heap whose array [hotspots] holds the hotspot list,
    [calculateRecommendations] leaves every array that existed with the
    elements it had (the two in-place sorts reorder arrays built during the
    call) and returns a new array holding the ranking; summaries and life
    list are only read, and of the component state only the recommendations
    and the stage change. *)
Theorem inputs_unchanged
    (region : Region) (s : State) (heap : Heap) (hs : Ref) :
  heap !! hs = Some (HotspotArray (hotspots s)) ->
  let s' := calculateRecommendations region s in
  exists (created : list JSArray) (recs : Ref),
    rank_on_heap region hs (speciesData s) (userLifeList s) heap =
      (recs, heap ++ created) /\
    (forall r a, heap !! r = Some a -> (heap ++ created) !! r = Some a) /\
    heap !! recs = None /\
    (heap ++ created) !! recs = Some (RecommendationArray (recommendations s')) /\
    hotspots s' = hotspots s /\
    speciesData s' = speciesData s /\
    userLifeList s' = userLifeList s /\
    stage s' = StageRecommendations.
Proof.
  intros Hhs. cbv zeta.
  destruct (rank_on_heap_spec region (speciesData s) (userLifeList s) hs
              (hotspots s) heap Hhs) as (created & recs & Hrun & Hfresh & Hrecs).
  exists created, recs.
  split; [exact Hrun |]. split.
  - intros r a Hr. now apply lookup_app_l_Some.
  - repeat split; assumption.
Qed.

Lemma inputs_unchanged_witness :
  let s := {| stage := StageSpecies;
              hotspots := [at_center "L1"; at_center "L9"];
              speciesData := partition_data;
              userLifeList := {[ "norcad" ]};
              recommendations := [] |} in
  let heap := [HotspotArray (hotspots s)] in
  exists (created : list JSArray) (recs : Ref),
    rank_on_heap CHICAGO_WEST 0 (speciesData s) (userLifeList s) heap =
      (recs, heap ++ created) /\
    (heap ++ created) !! 0 = Some (HotspotArray (hotspots s)) /\
    heap !! recs = None.
Proof.
  cbv zeta.
  destruct (inputs_unchanged CHICAGO_WEST
              {| stage := StageSpecies;
                 hotspots := [at_center "L1"; at_center "L9"];
                 speciesData := partition_data;
                 userLifeList := {[ "norcad" ]};
                 recommendations := [] |}
              [HotspotArray [at_center "L1"; at_center "L9"]] 0 eq_refl)
    as (created & recs & Hrun & Hframe & Hfresh & _).
  exists created, recs.
  split; [exact Hrun |]. split; [| exact Hfresh].
  apply Hframe. reflexivity.
Defined.

(** ** Summaries built by the tally *)


Section Rates.
Local Open Scope R_scope.

End Rates.
(** * Further properties of the page *)

(** ** Step 3 and the pipeline *)

Lemma processAllHotspots_fold_lookup (api : string -> option (list Observation))
    (l : list Hotspot) (results : gmap string HotspotData) (id : string) :
  foldl (fun results hotspot =>
           <[locId hotspot :=
               fetchHotspotSpecies (locId hotspot) (api (locId hotspot))]> results)
        results l !! id =
  if bool_decide (id ∈ map locId l)
  then Some (fetchHotspotSpecies id (api id))
  else results !! id.
Proof.
  revert results. induction l as [| h l IH]; intros results; [reflexivity |].
  cbn [foldl map]. rewrite IH.
  destruct (decide (id ∈ map locId l)) as [Hin | Hnin].
  - rewrite !bool_decide_eq_true_2; [reflexivity | now right | assumption].
  - rewrite (bool_decide_eq_false_2 _ Hnin).
    destruct (decide (locId h = id)) as [<- | Hne].
    + rewrite lookup_insert_eq, bool_decide_eq_true_2 by left. reflexivity.
    + rewrite lookup_insert_ne by assumption.
      rewrite bool_decide_eq_false_2; [reflexivity |].
      rewrite not_elem_of_cons. split; [congruence | assumption].
Qed.

Lemma processAllHotspots_listed (api : string -> option (list Observation))
    (s : State) (h : Hotspot) :
  h ∈ hotspots s ->
  speciesData (processAllHotspots api s) !! locId h =
  Some (fetchHotspotSpecies (locId h) (api (locId h))).
Proof.
  intros Hh. unfold processAllHotspots. cbn [speciesData].
  rewrite processAllHotspots_fold_lookup.
  rewrite bool_decide_eq_true_2; [reflexivity |].
  apply list_elem_of_fmap. now exists h.
Qed.

(** X1: after [processAllHotspots] the summaries are exactly those of the
    listed hotspots, each the one [fetchHotspotSpecies] builds for its id;
    summaries an earlier run left for other ids are gone.  Hotspot list,
    life list and recommendations are kept. *)
Theorem processAllHotspots_summaries
    (api : string -> option (list Observation)) (s : State) :
  let s' := processAllHotspots api s in
  (forall h, h ∈ hotspots s ->
     speciesData s' !! locId h =
       Some (fetchHotspotSpecies (locId h) (api (locId h)))) /\
  (forall id, id ∉ map locId (hotspots s) -> speciesData s' !! id = None) /\
  dom (speciesData s') = list_to_set (map locId (hotspots s)) /\
  hotspots s' = hotspots s /\
  userLifeList s' = userLifeList s /\
  recommendations s' = recommendations s.
Proof.
  cbv zeta.
  assert (Hout : forall id, id ∉ map locId (hotspots s) ->
                   speciesData (processAllHotspots api s) !! id = None).
  { intros id Hid. unfold processAllHotspots. cbn [speciesData].
    rewrite processAllHotspots_fold_lookup.
    now rewrite bool_decide_eq_false_2. }
  split; [apply processAllHotspots_listed |].
  split; [exact Hout |].
  split; [| auto].
  apply set_eq. intros id. rewrite elem_of_dom, elem_of_list_to_set.
  split.
  - intros Hsome. destruct (decide (id ∈ map locId (hotspots s))) as [|Hnin];
      [assumption |].
    rewrite (Hout id Hnin) in Hsome. now destruct Hsome.
  - intros Hin. apply list_elem_of_fmap in Hin as (h & -> & Hh).
    rewrite processAllHotspots_listed by assumption. now eexists.
Qed.

Lemma filter_all {A : Type} (P : A -> bool) (l : list A) :
  (forall x, x ∈ l -> P x = true) -> List.filter P l = l.
Proof.
  induction l as [| x l IH]; intros H; [reflexivity |].
  cbn [List.filter]. rewrite H by left.
  f_equal. apply IH. intros y Hy. apply H. now right.
Qed.

Lemma pipeline_hotspots (region : Region)
    (api : string -> option (list Observation)) (s : State) :
  map hotspot (omap (recommend region (speciesData (processAllHotspots api s))
                       (userLifeList s)) (hotspots s)) = hotspots s.
Proof.
  rewrite omap_recommend_hotspots. apply filter_all.
  intros h Hh. apply bool_decide_eq_true_2.
  rewrite processAllHotspots_listed by assumption. now eexists.
Qed.

(** X2: run on the state [processAllHotspots] leaves,
    [calculateRecommendations] drops no hotspot: the recommendations are
    those of the listed hotspots, one for each, rearranged. *)
Theorem pipeline_recommends_every_hotspot
    (region : Region) (api : string -> option (list Observation)) (s : State) :
  let s' := calculateRecommendations region (processAllHotspots api s) in
  Permutation (map hotspot (recommendations s')) (hotspots s) /\
  length (recommendations s') = length (hotspots s) /\
  hotspots s' = hotspots s /\
  stage s' = StageRecommendations.
Proof.
  cbv zeta.
  assert (Hperm : Permutation
            (map hotspot (recommendations
               (calculateRecommendations region (processAllHotspots api s))))
            (hotspots s)).
  { cbn [calculateRecommendations recommendations]. unfold rank.
    rewrite Array_sort_perm.
    change (hotspots (processAllHotspots api s)) with (hotspots s).
    change (userLifeList (processAllHotspots api s)) with (userLifeList s).
    now rewrite pipeline_hotspots. }
  split; [exact Hperm |]. split; [| split; reflexivity].
  apply Permutation_length in Hperm. now rewrite length_map in Hperm.
Qed.

(** ** The life list *)

Lemma filter_sublist_impl {A : Type} (P Q : A -> bool) (l : list A) :
  (forall x, x ∈ l -> P x = true -> Q x = true) ->
  sublist (List.filter P l) (List.filter Q l).
Proof.
  induction l as [| x l IH]; intros H; [constructor |].
  assert (IH' : sublist (List.filter P l) (List.filter Q l)).
  { apply IH. intros y Hy. apply H. now right. }
  cbn [List.filter]. destruct (P x) eqn:Px.
  - rewrite (H x) by (left || assumption). now constructor.
  - destruct (Q x); [now constructor | assumption].
Qed.

Lemma total_count_sublist (l k : list (string * SpeciesInfo)) :
  sublist l k -> total_count l <= total_count k.
Proof.
  unfold total_count. induction 1; cbn; lia.
Qed.

Lemma filter_ext_elem {A : Type} (P Q : A -> bool) (l : list A) :
  (forall x, x ∈ l -> P x = Q x) -> List.filter P l = List.filter Q l.
Proof.
  induction l as [| x l IH]; intros H; [reflexivity |].
  cbn [List.filter]. rewrite (H x) by left.
  rewrite IH; [reflexivity |]. intros y Hy. apply H. now right.
Qed.

(** X4: birds added to the life list can only take species off a
    hotspot's new-species list: the list for the longer life list is the
    other one with entries left out, in the same order, so the count does
    not grow, and neither does the expected value (for a summary with at
    least one checklist). *)
Theorem longer_life_list_fewer_new_species
    (ll ll' : gset string) (hd : HotspotData) :
  ll ⊆ ll' ->
  sublist (newSpeciesOf ll' hd) (newSpeciesOf ll hd) /\
  length (newSpeciesOf ll' hd) <= length (newSpeciesOf ll hd) /\
  (totalChecklists hd <> 0 ->
   exists e e' : R,
     expectedNewSpeciesOf hd (newSpeciesOf ll hd) = Fin e /\
     expectedNewSpeciesOf hd (newSpeciesOf ll' hd) = Fin e' /\
     (0 <= e' <= e)%R).
Proof.
  intros Hsub.
  assert (Hs : sublist (newSpeciesOf ll' hd) (newSpeciesOf ll hd)).
  { apply filter_sublist_impl. intros [code d] _. cbn [fst].
    rewrite !negb_true_iff, !bool_decide_eq_false. intros Hn Hin.
    apply Hn, Hsub, Hin. }
  split; [exact Hs |]. split; [now apply sublist_length |].
  intros Ht.
  exists (rate_sum (totalChecklists hd) (newSpeciesOf ll hd)),
         (rate_sum (totalChecklists hd) (newSpeciesOf ll' hd)).
  split; [now apply expected_rate_sum |]. split; [now apply expected_rate_sum |].
  split; [apply rate_sum_nonneg |].
  rewrite !rate_sum_total.
  assert (0 < INR (totalChecklists hd))%R by (apply lt_0_INR; lia).
  apply Rmult_le_compat_r; [left; now apply Rinv_0_lt_compat |].
  apply le_INR. now apply total_count_sublist.
Qed.

Lemma longer_life_list_fewer_new_species_witness :
  length (newSpeciesOf {[ "amerob"; "blujay" ]} (summary "L7" seven_species 28)) <=
  length (newSpeciesOf {[ "amerob" ]} (summary "L7" seven_species 28)).
Proof.
  apply (longer_life_list_fewer_new_species {[ "amerob" ]} {[ "amerob"; "blujay" ]}
           (summary "L7" seven_species 28)).
  apply union_subseteq_l.
Defined.


(** X6: [toggleBirdInLifeList] flips the membership of its code and of no
    other; toggling the same code twice gives the life list back, and the
    size changes by one. *)
Theorem toggle_flips_membership (code : string) (ll : gset string) :
  (code ∈ toggleBirdInLifeList code ll <-> code ∉ ll) /\
  (forall other, other <> code ->
     (other ∈ toggleBirdInLifeList code ll <-> other ∈ ll)) /\
  toggleBirdInLifeList code (toggleBirdInLifeList code ll) = ll /\
  size (toggleBirdInLifeList code ll) =
    (if bool_decide (code ∈ ll) then size ll - 1 else S (size ll)).
Proof.
  unfold toggleBirdInLifeList. cbv zeta.
  destruct (decide (code ∈ ll)) as [Hin | Hnin].
  - assert (Hout : code ∉ ll ∖ {[code]}).
    { rewrite elem_of_difference, elem_of_singleton. tauto. }
    rewrite !(bool_decide_eq_true_2 _ Hin), (bool_decide_eq_false_2 _ Hout).
    split; [tauto |]. split; [| split].
    + intros other Hne. rewrite elem_of_difference, elem_of_singleton. tauto.
    + apply set_eq. intros x.
      rewrite elem_of_union, elem_of_difference, elem_of_singleton.
      destruct (decide (x = code)) as [-> | Hne]; tauto.
    + rewrite size_difference by (now apply singleton_subseteq_l).
      now rewrite size_singleton.
  - assert (Hnow : code ∈ ll ∪ {[code]}).
    { rewrite elem_of_union, elem_of_singleton. tauto. }
    rewrite !(bool_decide_eq_false_2 _ Hnin), (bool_decide_eq_true_2 _ Hnow).
    split; [tauto |]. split; [| split].
    + intros other Hne. rewrite elem_of_union, elem_of_singleton. tauto.
    + apply set_eq. intros x.
      rewrite elem_of_difference, elem_of_union, elem_of_singleton.
      destruct (decide (x = code)) as [-> | Hne]; tauto.
    + rewrite size_union by (now apply disjoint_singleton_r).
      rewrite size_singleton. lia.
Qed.

(** X7: a recommendation depends on the life list only through the codes
    of the hotspot's species table: life lists that agree on those codes
    give the same recommendation, so toggling a bird never recorded at the
    hotspot changes nothing there. *)
Theorem recommendation_ignores_unrecorded_birds
    (region : Region) (sd : gmap string HotspotData) (ll : gset string)
    (h : Hotspot) (hd : HotspotData) :
  sd !! locId h = Some hd ->
  (forall ll' : gset string,
     (forall code, code ∈ map fst (species hd) -> (code ∈ ll <-> code ∈ ll')) ->
     recommend region sd ll' h = recommend region sd ll h) /\
  (forall code, code ∉ map fst (species hd) ->
     recommend region sd (toggleBirdInLifeList code ll) h =
     recommend region sd ll h).
Proof.
  intros Hsd.
  assert (Hagree : forall ll' : gset string,
             (forall code, code ∈ map fst (species hd) -> (code ∈ ll <-> code ∈ ll')) ->
             recommend region sd ll' h = recommend region sd ll h).
  { intros ll' Hll.
    rewrite !(recommend_eq _ _ _ _ _ Hsd). unfold rawScore.
    assert (Hnew : newSpeciesOf ll' hd = newSpeciesOf ll hd).
    { apply filter_ext_elem. intros [code d] Hin. cbn [fst]. f_equal.
      apply bool_decide_ext. symmetry. apply Hll.
      apply list_elem_of_fmap. now exists (code, d). }
    now rewrite Hnew. }
  split; [exact Hagree |].
  intros code Hcode. apply Hagree. intros code' Hcode'.
  assert (code' <> code) by congruence.
  unfold toggleBirdInLifeList. cbv zeta.
  destruct (bool_decide (code ∈ ll)).
  - rewrite elem_of_difference, elem_of_singleton. tauto.
  - rewrite elem_of_union, elem_of_singleton. tauto.
Qed.

Lemma recommendation_ignores_unrecorded_birds_witness :
  recommend CHICAGO_WEST seven_data (toggleBirdInLifeList "houspa" {[ "blujay" ]})
            (at_center "L7") =
  recommend CHICAGO_WEST seven_data {[ "blujay" ]} (at_center "L7").
Proof.
  refine (proj2 (recommendation_ignores_unrecorded_birds CHICAGO_WEST seven_data
                   {[ "blujay" ]} (at_center "L7") (summary "L7" seven_species 28) _) "houspa" _).
  - reflexivity.
  - vm_compute. intros H.
    repeat (apply elem_of_cons in H as [H | H]; [discriminate |]).
    inversion H.
Defined.

(** ** Distances *)

Section GreatCircle.
Local Open Scope R_scope.

Lemma toRad_le (x y : R) : x <= y -> toRad x <= toRad y.
Proof.
  intros H. unfold toRad. pose proof PI_RGT_0.
  apply Rmult_le_compat_r; lra.
Qed.

Lemma toRad_lt (x y : R) : x < y -> toRad x < toRad y.
Proof.
  intros H. unfold toRad. pose proof PI_RGT_0.
  apply Rmult_lt_compat_r; lra.
Qed.

Lemma toRad_180 : toRad 180 = PI.
Proof. unfold toRad. field. Qed.

Lemma toRad_opp (x : R) : toRad (- x) = - toRad x.
Proof. unfold toRad. ring. Qed.

Lemma toRad_0 : toRad 0 = 0.
Proof. unfold toRad. ring. Qed.

Lemma toRad_eq_0 (x : R) : toRad x = 0 -> x = 0.
Proof.
  unfold toRad. intros H. pose proof PI_RGT_0.
  apply Rmult_integral in H as [H | H]; lra.
Qed.

(** A half-angle sine gives the angle back: the angle of
    [calculateDistance] for [a = sin² (x / 2)] is [|x|]. *)
Lemma angle_of_half_sine (x : R) :
  - PI <= x <= PI ->
  2 * Math_atan2 (sqrt (sin (x / 2) * sin (x / 2)))
                 (sqrt (1 - sin (x / 2) * sin (x / 2))) = Rabs x.
Proof.
  intros [Hlo Hhi]. pose proof PI_RGT_0 as Hpi.
  assert (Ha : 0 <= sin (x / 2) * sin (x / 2) <= 1).
  { pose proof (SIN_bound (x / 2)) as [H1 H2].
    split; [apply Rle_0_sqr |].
    pose proof (sin2_cos2 (x / 2)) as Hsc. unfold Rsqr in Hsc.
    pose proof (Rle_0_sqr (cos (x / 2))) as Hc. unfold Rsqr in Hc. lra. }
  destruct (central_angle _ Ha) as [[Ht0 Ht1] Hsin].
  set (t := Math_atan2 _ _) in *.
  assert (Hhalf : sin t = sin (Rabs x / 2)).
  { rewrite Hsin. change (sin (x / 2) * sin (x / 2)) with (sin (x / 2))².
    rewrite sqrt_Rsqr_abs.
    destruct (Rle_dec 0 x) as [Hx | Hx].
    - rewrite (Rabs_pos_eq x) by assumption.
      apply Rabs_pos_eq, sin_ge_0; lra.
    - rewrite (Rabs_left x) by lra.
      replace (- x / 2) with (- (x / 2)) by lra.
      rewrite sin_neg. apply Rabs_left1.
      assert (0 <= sin (- (x / 2))) by (apply sin_ge_0; lra).
      rewrite sin_neg in *. lra. }
  assert (Hr : 0 <= Rabs x <= PI).
  { split; [apply Rabs_pos |]. apply Rabs_le. lra. }
  apply sin_inj in Hhalf; lra.
Qed.

End GreatCircle.

(** X9: along a meridian and along the equator the distance is the arc
    length, 6371 km times the angle in radians, for points at most half a
    turn apart. *)
Theorem distance_along_meridian_and_equator (x y lon : R) :
  (-180 <= y - x <= 180)%R ->
  calculateDistance x lon y lon = (6371 * Rabs (toRad (y - x)))%R /\
  calculateDistance 0 x 0 y = (6371 * Rabs (toRad (y - x)))%R.
Proof.
  intros [Hlo Hhi].
  assert (Hr : (- PI <= toRad (y - x) <= PI)%R).
  { rewrite <- toRad_180, <- toRad_opp. split; apply toRad_le; lra. }
  pose proof (angle_of_half_sine _ Hr) as Hangle.
  split; unfold calculateDistance, haversine_a; cbv zeta.
  - replace (lon - lon)%R with 0%R by ring.
    rewrite toRad_0. replace (0 / 2)%R with 0%R by lra. rewrite sin_0.
    rewrite !Rmult_0_r, Rplus_0_r. now rewrite Hangle.
  - replace (0 - 0)%R with 0%R by ring.
    rewrite toRad_0. replace (0 / 2)%R with 0%R by lra. rewrite sin_0, cos_0.
    rewrite Rmult_0_l, Rplus_0_l, !Rmult_1_l. now rewrite Hangle.
Qed.

Lemma distance_along_meridian_and_equator_witness :
  calculateDistance 41 (-87) 42 (-87) = (6371 * Rabs (toRad (42 - 41)))%R.
Proof.
  apply (distance_along_meridian_and_equator 41 42 (-87)). lra.
Defined.

(** ** Scores and shown values *)

(** X10: for a fixed non-negative expected value the score does not grow
    with the distance, over positive distances: of two hotspots expecting
    the same, the nearer one scores at least as much. *)
Theorem score_decreases_with_distance (d1 d2 e : R) :
  (0 < d1 <= d2)%R -> (0 <= e)%R ->
  exists s1 s2 : R,
    scoreOf (Fin d1) (Fin e) = Fin s1 /\
    scoreOf (Fin d2) (Fin e) = Fin s2 /\
    (0 <= s2 <= s1)%R.
Proof.
  intros [Hd1 Hd12] He.
  assert (Hq1 : (0 < sqrt d1)%R) by (now apply sqrt_lt_R0).
  assert (Hq12 : (sqrt d1 <= sqrt d2)%R) by (now apply sqrt_le_1_alt).
  exists (e / sqrt d1)%R, (e / sqrt d2)%R.
  rewrite !scoreOf_pos, !num_div_fin by lra.
  split; [reflexivity |]. split; [reflexivity |].
  unfold Rdiv. split.
  - apply Rmult_le_pos; [assumption |]. left. apply Rinv_0_lt_compat. lra.
  - apply Rmult_le_compat_l; [assumption |]. apply Rinv_le_contravar; assumption.
Qed.

Lemma score_decreases_with_distance_witness :
  exists s1 s2 : R,
    scoreOf (Fin 1) (Fin 2) = Fin s1 /\
    scoreOf (Fin 4) (Fin 2) = Fin s2 /\
    (0 <= s2 <= s1)%R.
Proof.
  apply (score_decreases_with_distance 1 4 2); lra.
Defined.

(** X11: the exception is the distance zero, which takes the branch
    without the division: a hotspot at the centre scores what it would
    score 1 km away, hence less than the same hotspot at any distance
    between 0 and 1 km. *)
Theorem score_at_the_centre (e : number) :
  scoreOf (Fin 0) e = scoreOf (Fin 1) e /\
  (forall d x : R, (0 < d < 1)%R -> (0 < x)%R -> e = Fin x ->
     exists s : R, scoreOf (Fin d) e = Fin s /\
                   num_gt (scoreOf (Fin d) e) (scoreOf (Fin 0) e) = true).
Proof.
  split.
  - rewrite scoreOf_zero, scoreOf_pos, sqrt_1 by lra.
    destruct e as [a | | |]; cbn; try reflexivity.
    + rewrite Reqb_false by lra. f_equal. field.
    + now rewrite Rleb_true by lra.
    + now rewrite Rltb_false by lra.
  - intros d x [Hd0 Hd1] Hx ->.
    assert (Hq : (0 < sqrt d)%R) by (now apply sqrt_lt_R0).
    assert (Hq1 : (sqrt d < 1)%R).
    { rewrite <- sqrt_1. apply sqrt_lt_1_alt. lra. }
    rewrite scoreOf_zero, scoreOf_pos, num_div_fin by lra.
    exists (x / sqrt d)%R. split; [reflexivity |].
    cbn [num_gt]. apply Rltb_true.
    apply (Rmult_lt_reg_r (sqrt d)); [assumption |].
    unfold Rdiv. rewrite Rmult_assoc, Rinv_l, Rmult_1_r by lra.
    rewrite <- (Rmult_1_r x) at 2. apply Rmult_lt_compat_l; assumption.
Qed.




(** ** Step 1: the hotspot list *)

(** X15: without an API key [fetchHotspots] sends nothing: whatever the
    request would produce, only the error banner changes.  With a key, a
    failed request ends with an error message and the busy flag off, and
    in both cases hotspots, stage, summaries, life list and
    recommendations are as before. *)
Theorem fetchHotspots_failure
    (region : Region) (response : HotspotsResponse) (c : Component) :
  apiKey c = "" \/ (forall hs, response <> ResponseOk hs) ->
  let c' := fetchHotspots region response c in
  pipeline c' = pipeline c /\
  is_Some (error c') /\
  (apiKey c = "" ->
     error c' = Some "Please enter your eBird API key" /\ loading c' = loading c) /\
  (apiKey c <> "" -> loading c' = false).
Proof.
  intros Hfail. cbv zeta. unfold fetchHotspots.
  destruct (String.eqb (apiKey c) "") eqn:Ekey.
  - apply String.eqb_eq in Ekey. cbn [pipeline error loading].
    split; [reflexivity |]. split; [now eexists |]. split; [auto | congruence].
  - apply String.eqb_neq in Ekey.
    destruct Hfail as [Hnokey | Hnotok]; [congruence |].
    destruct response as [message | | hs]; cbn [pipeline error loading].
    + split; [reflexivity |]. split; [now eexists |]. split; [congruence | auto].
    + split; [reflexivity |]. split; [now eexists |]. split; [congruence | auto].
    + now contradiction (Hnotok hs).
Qed.

Lemma fetchHotspots_failure_witness :
  pipeline
    (fetchHotspots CHICAGO_WEST (ResponseOk [at_center "A"])
       {| apiKey := "";
          pipeline := {| stage := StageConfig; hotspots := []; speciesData := ∅;
                         userLifeList := ∅; recommendations := [] |};
          loading := false; error := None |}) =
  {| stage := StageConfig; hotspots := []; speciesData := ∅;
     userLifeList := ∅; recommendations := [] |}.
Proof.
  apply (fetchHotspots_failure CHICAGO_WEST (ResponseOk [at_center "A"])
           {| apiKey := "";
              pipeline := {| stage := StageConfig; hotspots := []; speciesData := ∅;
                             userLifeList := ∅; recommendations := [] |};
              loading := false; error := None |}).
  left. reflexivity.
Defined.

Lemma filter_sublist {A : Type} (P : A -> bool) (l : list A) :
  sublist (List.filter P l) l.
Proof.
  induction l as [| x l IH]; [constructor |].
  cbn [List.filter]. destruct (P x); now constructor.
Qed.

(** X16: the earlier revision keeps, of the hotspots of the response, those
    within the radius of the region, in the order of the response, and at
    most twenty of them: the first twenty, so every hotspot within the
    radius is kept when there are no more than twenty. *)
Theorem prototype_hotspots_within_radius
    (region : Region) (response : list Hotspot) (c : Component) :
  let within := fun h => num_ge (Fin (radius region)) (distanceOf region h) in
  let kept := hotspots (pipeline (fetchHotspots_prototype region (ResponseOk response) c)) in
  length kept <= 20 /\
  sublist kept response /\
  Forall (fun h => within h = true) kept /\
  (length (List.filter within response) <= 20 ->
   forall h, h ∈ response -> within h = true -> h ∈ kept).
Proof.
  cbv zeta. unfold fetchHotspots_prototype. cbn [pipeline hotspots].
  set (within := fun h => num_ge (Fin (radius region)) (distanceOf region h)).
  split; [rewrite length_take; lia |].
  split; [etransitivity; [apply sublist_take | apply filter_sublist] |].
  split.
  - apply Forall_forall. intros h Hh.
    apply (fun H => elem_of_sublist _ _ _ H (sublist_take _ _)) in Hh.
    apply list_elem_of_In, List.filter_In in Hh. apply Hh.
  - intros Hlen h Hh Hw. rewrite take_ge by assumption.
    apply list_elem_of_In, List.filter_In. split; [now apply list_elem_of_In | exact Hw].
Qed.

(** ** The full run *)

Lemma sorted_app_elems {A : Type} (R : A -> A -> Prop) (l1 l2 : list A) :
  StronglySorted R (l1 ++ l2) ->
  forall a b, a ∈ l1 -> b ∈ l2 -> R a b.
Proof.
  induction l1 as [| x l1 IH]; intros Hs a b Ha Hb; [inversion Ha |].
  cbn in Hs. apply StronglySorted_inv in Hs as [Hs Hx].
  apply elem_of_cons in Ha as [-> | Ha].
  - rewrite Forall_forall in Hx. apply Hx.
    apply list_elem_of_In, in_or_app. right. now apply list_elem_of_In.
  - now apply IH.
Qed.

(** X18: the cards the page shows after a run of the pipeline are the ten
    best: at most ten, all of them when there are no more than ten
    hotspots, and none shows a lower score than a recommendation left
    out. *)
Theorem shown_cards_are_the_best
    (region : Region) (api : string -> option (list Observation)) (s : State) :
  let s' := calculateRecommendations region (processAllHotspots api s) in
  length (shownRecommendations s') = Nat.min 10 (length (hotspots s)) /\
  (forall a b, a ∈ shownRecommendations s' -> b ∈ drop 10 (recommendations s') ->
     num_ge (parseFloat (score a)) (parseFloat (score b)) = true).
Proof.
  cbv zeta. unfold shownRecommendations. split.
  - rewrite length_take. f_equal.
    cbn [calculateRecommendations recommendations]. unfold rank.
    rewrite Array_sort_length, <- (length_map hotspot).
    change (hotspots (processAllHotspots api s)) with (hotspots s).
    change (userLifeList (processAllHotspots api s)) with (userLifeList s).
    now rewrite pipeline_hotspots.
  - apply (sorted_app_elems
             (fun a b => num_ge (parseFloat (score a)) (parseFloat (score b)) = true)).
    rewrite take_drop. cbn [calculateRecommendations recommendations].
    apply rank_sorted. intros id hd. apply processAllHotspots_counted.
Qed.

(** ** Clicks on the bird list *)

Lemma toggle_elem (code c : string) (ll : gset string) :
  bool_decide (code ∈ toggleBirdInLifeList c ll) =
  xorb (bool_decide (code ∈ ll)) (String.eqb c code).
Proof.
  unfold toggleBirdInLifeList. cbv zeta.
  destruct (String.eqb c code) eqn:E.
  - apply String.eqb_eq in E as ->.
    destruct (decide (code ∈ ll)) as [Hin | Hnin].
    + rewrite !(bool_decide_eq_true_2 _ Hin). cbn.
      apply bool_decide_eq_false_2.
      rewrite elem_of_difference, elem_of_singleton. tauto.
    + rewrite !(bool_decide_eq_false_2 _ Hnin). cbn.
      apply bool_decide_eq_true_2.
      rewrite elem_of_union, elem_of_singleton. tauto.
  - apply String.eqb_neq in E. rewrite xorb_false_r.
    apply bool_decide_ext.
    destruct (bool_decide (c ∈ ll)).
    + rewrite elem_of_difference, elem_of_singleton.
      split; [tauto | intros H; split; [exact H | congruence]].
    + rewrite elem_of_union, elem_of_singleton.
      split; [intros [H | H]; [exact H | congruence] | tauto].
Qed.

(** X19: after any sequence of clicks on the bird list, a bird has changed
    sides exactly when it was clicked an odd number of times; starting from
    the empty life list, a bird never clicked is not on the list, so every
    species recorded under its code stays among the new species. *)
Theorem life_list_after_clicks (clicks : list string) (ll : gset string) (code : string) :
  bool_decide (code ∈ clickBirds clicks ll) =
    xorb (bool_decide (code ∈ ll))
         (Nat.odd (length (List.filter (fun c => String.eqb c code) clicks))) /\
  (code ∉ clicks ->
   (code ∉ clickBirds clicks ∅) /\
   forall hd d, (code, d) ∈ species hd ->
                (code, d) ∈ newSpeciesOf (clickBirds clicks ∅) hd).
Proof.
  assert (Hparity : forall ll : gset string,
             bool_decide (code ∈ clickBirds clicks ll) =
             xorb (bool_decide (code ∈ ll))
                  (Nat.odd (length (List.filter (fun c => String.eqb c code) clicks)))).
  { unfold clickBirds. induction clicks as [| c rest IH]; intros ll'.
    - cbn. now rewrite xorb_false_r.
    - cbn [foldl List.filter]. rewrite IH, toggle_elem.
      destruct (String.eqb c code); [| now rewrite xorb_false_r].
      cbn [length]. rewrite Nat.odd_succ, <- Nat.negb_odd.
      destruct (bool_decide (code ∈ ll')), (Nat.odd _); reflexivity. }
  split; [apply Hparity |].
  intros Hnever.
  assert (Hout : code ∉ clickBirds clicks ∅).
  { apply (proj1 (bool_decide_eq_false _)). rewrite Hparity.
    rewrite (bool_decide_eq_false_2 (code ∈ (∅ : gset string)))
      by apply not_elem_of_empty.
    assert (Hnone : List.filter (fun c => String.eqb c code) clicks = []).
    { clear -Hnever. induction clicks as [| c rest IH]; [reflexivity |].
      apply not_elem_of_cons in Hnever as [Hne Hrest].
      cbn [List.filter]. apply not_eq_sym, String.eqb_neq in Hne. rewrite Hne.
      now apply IH. }
    now rewrite Hnone. }
  split; [exact Hout |].
  intros hd d Hin. apply newSpeciesOf_spec. split; [exact Hin | exact Hout].
Qed.

(** * The program on binary64 numbers and plain objects *)

Section JsProperties.
Import Floats.
(** * The page as JavaScript evaluates it: properties *)

(** ** Species tables in the order of [Object.entries] *)

Lemma own_update_get (o : SpeciesFrequency) (k k' : string) (v : SpeciesInfo) :
  obj_get (Js.own_update o k v) k' =
  if String.eqb k k'
  then match obj_get o k with Some _ => Some v | None => None end
  else obj_get o k'.
Proof.
  induction o as [| [j w] o IH]; cbn.
  - now destruct (String.eqb k k').
  - destruct (String.eqb j k) eqn:Ejk; cbn.
    + apply String.eqb_eq in Ejk as ->. now destruct (String.eqb k k').
    + rewrite IH. destruct (String.eqb k k') eqn:Ekk'; [| reflexivity].
      apply String.eqb_eq in Ekk' as <-. now rewrite Ejk.
Qed.

Lemma own_add_get (o : SpeciesFrequency) (k k' : string) (v : SpeciesInfo) :
  obj_get o k = None ->
  obj_get (Js.own_add o k v) k' = if String.eqb k k' then Some v else obj_get o k'.
Proof.
  induction o as [| [j w] o IH]; cbn; [reflexivity |].
  destruct (String.eqb j k) eqn:Ejk; [discriminate |]. intros Hnone.
  destruct (Js.listed_before k j); cbn; [reflexivity |].
  rewrite IH by assumption.
  destruct (String.eqb k k') eqn:Ekk'; [| reflexivity].
  apply String.eqb_eq in Ekk' as <-. now rewrite Ejk.
Qed.

Lemma own_set_get (o : SpeciesFrequency) (k k' : string) (v : SpeciesInfo) :
  obj_get (Js.own_set o k v) k' = if String.eqb k k' then Some v else obj_get o k'.
Proof.
  unfold Js.own_set. destruct (obj_get o k) as [d |] eqn:E.
  - rewrite own_update_get, E. reflexivity.
  - now apply own_add_get.
Qed.

Lemma own_update_keys (o : SpeciesFrequency) (k : string) (v : SpeciesInfo) :
  map fst (Js.own_update o k v) = map fst o.
Proof.
  induction o as [| [j w] o IH]; cbn; [reflexivity |].
  destruct (String.eqb j k); cbn; [reflexivity | now rewrite IH].
Qed.

Lemma own_add_keys (o : SpeciesFrequency) (k : string) (v : SpeciesInfo) :
  Permutation (map fst (Js.own_add o k v)) (k :: map fst o).
Proof.
  induction o as [| [j w] o IH]; cbn; [reflexivity |].
  destruct (Js.listed_before k j); cbn; [reflexivity |].
  rewrite IH. apply perm_swap.
Qed.

Lemma own_add_last (o : SpeciesFrequency) (k : string) (v : SpeciesInfo) :
  Js.array_index k = None -> Js.own_add o k v = o ++ [(k, v)].
Proof.
  intros Hk. induction o as [| [j w] o IH]; cbn; [reflexivity |].
  unfold Js.listed_before. rewrite Hk. now rewrite IH.
Qed.

Lemma own_update_add (o : SpeciesFrequency) (k : string) (v v' : SpeciesInfo) :
  obj_get o k = None ->
  Js.own_update (Js.own_add o k v) k v' = Js.own_add o k v'.
Proof.
  induction o as [| [j w] o IH]; cbn.
  - now rewrite String.eqb_refl.
  - destruct (String.eqb j k) eqn:Ejk; [discriminate |]. intros Hnone.
    destruct (Js.listed_before k j); cbn.
    + now rewrite String.eqb_refl.
    + rewrite Ejk. now rewrite IH.
Qed.

Lemma own_update_total (o : SpeciesFrequency) (k : string) (v d : SpeciesInfo) :
  obj_get o k = Some d ->
  total_count (Js.own_update o k v) + count d = total_count o + count v.
Proof.
  unfold total_count.
  induction o as [| [j w] o IH]; cbn; [discriminate |].
  destruct (String.eqb j k); cbn.
  - intros [= ->]. lia.
  - intros H. specialize (IH H). lia.
Qed.

Lemma own_add_total (o : SpeciesFrequency) (k : string) (v : SpeciesInfo) :
  total_count (Js.own_add o k v) = total_count o + count v.
Proof.
  unfold total_count.
  induction o as [| [j w] o IH]; cbn; [lia |].
  destruct (Js.listed_before k j); cbn; lia.
Qed.

(** ** The tally *)

(** The callback in one step: an own entry is incremented, a code that
    names an inherited property is passed over, any other code gets an
    entry with a count of one. *)
Lemma tally_step (sf : SpeciesFrequency) (obs : Observation) :
  Js.tally sf obs =
  match obj_get sf (speciesCode obs) with
  | Some d =>
      Js.own_update sf (speciesCode obs)
        {| commonName := commonName d; scientificName := scientificName d;
           count := S (count d); lastSeen := lastSeen d |}
  | None =>
      if Js.inherited (speciesCode obs) then sf
      else Js.own_add sf (speciesCode obs)
             {| commonName := comName obs; scientificName := sciName obs;
                count := 1; lastSeen := obsDt obs |}
  end.
Proof.
  unfold Js.tally, Js.read_species.
  destruct (obj_get sf (speciesCode obs)) as [d |] eqn:Eget.
  - cbv zeta. rewrite Eget. unfold Js.own_set. now rewrite Eget.
  - destruct (Js.inherited (speciesCode obs)) eqn:Einh; cbv zeta.
    + now rewrite Eget.
    + rewrite own_set_get, String.eqb_refl.
      unfold Js.own_set. rewrite Eget, own_add_get, String.eqb_refl by assumption.
      now apply own_update_add.
Qed.

Lemma tally_entry (sf : SpeciesFrequency) (obs : Observation) (code : string) :
  obj_get (Js.tally sf obs) code =
  if String.eqb (speciesCode obs) code then
    match obj_get sf code with
    | Some d => Some {| commonName := commonName d;
                        scientificName := scientificName d;
                        count := S (count d);
                        lastSeen := lastSeen d |}
    | None =>
        if Js.inherited code then None
        else Some {| commonName := comName obs; scientificName := sciName obs;
                     count := 1; lastSeen := obsDt obs |}
    end
  else obj_get sf code.
Proof.
  rewrite tally_step.
  destruct (String.eqb (speciesCode obs) code) eqn:E.
  - apply String.eqb_eq in E as <-.
    destruct (obj_get sf (speciesCode obs)) as [d |] eqn:Eget.
    + now rewrite own_update_get, String.eqb_refl, Eget.
    + destruct (Js.inherited (speciesCode obs)); [assumption |].
      now rewrite own_add_get, String.eqb_refl.
  - destruct (obj_get sf (speciesCode obs)) as [d |] eqn:Eget.
    + now rewrite own_update_get, E.
    + destruct (Js.inherited (speciesCode obs)); [reflexivity |].
      now rewrite own_add_get, E.
Qed.

Lemma tally_keys_js (sf : SpeciesFrequency) (obs : Observation) :
  NoDup (map fst sf) -> NoDup (map fst (Js.tally sf obs)).
Proof.
  intros Hnd. rewrite tally_step.
  destruct (obj_get sf (speciesCode obs)) as [d |] eqn:Eget.
  - now rewrite own_update_keys.
  - destruct (Js.inherited (speciesCode obs)); [assumption |].
    rewrite own_add_keys. apply NoDup_cons. split; [| assumption].
    now apply obj_get_None_keys.
Qed.

Lemma tally_total_js (sf : SpeciesFrequency) (obs : Observation) :
  (forall code d, obj_get sf code = Some d -> Js.inherited code = false) ->
  total_count (Js.tally sf obs) =
  total_count sf + (if Js.inherited (speciesCode obs) then 0 else 1).
Proof.
  intros Hkeys. rewrite tally_step.
  destruct (obj_get sf (speciesCode obs)) as [d |] eqn:Eget.
  - rewrite (Hkeys _ _ Eget).
    pose proof (own_update_total sf (speciesCode obs)
      {| commonName := commonName d; scientificName := scientificName d;
         count := S (count d); lastSeen := lastSeen d |} d Eget) as H.
    cbn [count] in H. lia.
  - destruct (Js.inherited (speciesCode obs)); [lia |].
    rewrite own_add_total. reflexivity.
Qed.

(** The invariant of the [forEach] loop. *)
Lemma tally_loop_js (observations seen : list Observation) (sf : SpeciesFrequency) :
  NoDup (map fst sf) ->
  (forall code,
      count_of sf code = if Js.inherited code then 0 else occurrences code seen) ->
  (forall code d, obj_get sf code = Some d -> 1 <= count d) ->
  total_count sf = length (Js.tallied seen) ->
  let result := foldl Js.tally sf observations in
  NoDup (map fst result) /\
  (forall code,
      count_of result code =
      if Js.inherited code then 0 else occurrences code (seen ++ observations)) /\
  (forall code d, obj_get result code = Some d -> 1 <= count d) /\
  total_count result = length (Js.tallied (seen ++ observations)).
Proof.
  revert seen sf.
  induction observations as [| obs rest IH]; intros seen sf Hnd Hcnt Hpos Htot.
  - cbn. rewrite app_nil_r. auto.
  - cbn [foldl]. replace (seen ++ obs :: rest) with ((seen ++ [obs]) ++ rest)
      by (now rewrite <- app_assoc).
    assert (Hkeys : forall code d, obj_get sf code = Some d ->
                                   Js.inherited code = false).
    { intros code d Hget. specialize (Hcnt code). specialize (Hpos code d Hget).
      unfold count_of in Hcnt. rewrite Hget in Hcnt.
      destruct (Js.inherited code); [lia | reflexivity]. }
    apply IH.
    + now apply tally_keys_js.
    + intros code. unfold count_of. rewrite tally_entry, occurrences_snoc.
      specialize (Hcnt code). unfold count_of in Hcnt.
      destruct (String.eqb (speciesCode obs) code) eqn:E.
      * destruct (obj_get sf code) as [d |] eqn:Eget.
        -- rewrite (Hkeys _ _ Eget) in *. cbn [count]. lia.
        -- destruct (Js.inherited code); [reflexivity | cbn [count]; lia].
      * destruct (Js.inherited code); lia.
    + intros code d. rewrite tally_entry.
      destruct (String.eqb (speciesCode obs) code).
      * destruct (obj_get sf code) as [d' |].
        -- intros [= <-]. cbn. lia.
        -- destruct (Js.inherited code); [discriminate |]. intros [= <-]. cbn. lia.
      * apply Hpos.
    + rewrite tally_total_js by assumption. unfold Js.tallied in *.
      rewrite List.filter_app, length_app, Htot. cbn [List.filter].
      destruct (Js.inherited (speciesCode obs)); cbn; lia.
Qed.

Lemma fetch_invariant_js (id : string) (observations : list Observation) :
  let hd := Js.fetchHotspotSpecies id (Some observations) in
  NoDup (map fst (species hd)) /\
  (forall code,
      count_of (species hd) code =
      if Js.inherited code then 0 else occurrences code observations) /\
  (forall code d, obj_get (species hd) code = Some d -> 1 <= count d) /\
  total_count (species hd) = length (Js.tallied observations).
Proof.
  apply (tally_loop_js observations [] []).
  - constructor.
  - intros code. now destruct (Js.inherited code).
  - discriminate.
  - reflexivity.
Qed.

(** ** The order of the species table *)

Lemma inherited_not_index (key : string) :
  Js.inherited key = true -> Js.array_index key = None.
Proof.
  unfold Js.inherited. rewrite bool_decide_eq_true. unfold Js.Object_prototype_names.
  intros H.
  repeat (apply elem_of_cons in H as [-> | H]; [reflexivity |]).
  inversion H.
Qed.

Lemma own_add_index (o : SpeciesFrequency) (k : string) (v : SpeciesInfo) (i : N)
    (indices names : list string) :
  Js.array_index k = Some i ->
  map fst o = indices ++ names ->
  Forall (fun key => is_Some (Js.array_index key)) indices ->
  Forall (fun key => Js.array_index key = None) names ->
  StronglySorted Js.index_le indices ->
  exists indices',
    map fst (Js.own_add o k v) = indices' ++ names /\
    Permutation indices' (k :: indices) /\
    StronglySorted Js.index_le indices'.
Proof.
  intros Hk. revert o.
  induction indices as [| j0 indices IH]; intros o Hkeys Hidx Hnames Hsorted.
  - exists [k]. split; [| split; [reflexivity | repeat constructor]].
    destruct o as [| [j w] o]; cbn in Hkeys |- *; [now subst names |].
    destruct names as [| j' names]; [discriminate |].
    injection Hkeys as -> Hkeys. apply Forall_cons in Hnames as [Hj _].
    unfold Js.listed_before. rewrite Hk, Hj. cbn. now rewrite Hkeys.
  - destruct o as [| [j w] o]; [discriminate |].
    cbn in Hkeys. injection Hkeys as -> Hkeys.
    apply Forall_cons in Hidx as [[i0 Hj0] Hidx].
    apply StronglySorted_inv in Hsorted as [Hsorted Hj0le].
    cbn [Js.own_add]. unfold Js.listed_before. rewrite Hk, Hj0.
    destruct (N.ltb_spec i i0) as [Hlt | Hge].
    + exists (k :: j0 :: indices). split; [cbn; now rewrite Hkeys |].
      split; [reflexivity |].
      constructor; [now constructor |].
      constructor.
      * unfold Js.index_le. rewrite Hk, Hj0. lia.
      * rewrite Forall_forall in Hj0le, Hidx |- *. intros x Hx.
        specialize (Hj0le x Hx). destruct (Hidx x Hx) as [ix Hix].
        unfold Js.index_le in *. rewrite Hk, Hix. rewrite Hj0, Hix in Hj0le. lia.
    + destruct (IH o Hkeys Hidx Hnames Hsorted) as (indices' & Hkeys' & Hperm & Hs').
      exists (j0 :: indices'). split; [cbn; now rewrite Hkeys' |].
      split; [rewrite Hperm; apply perm_swap |].
      constructor; [assumption |].
      eapply Permutation_Forall; [symmetry; exact Hperm |].
      constructor; [| assumption].
      unfold Js.index_le. rewrite Hj0, Hk. lia.
Qed.

Lemma first_seen_snoc (codes : list string) (code : string) :
  first_seen (codes ++ [code]) =
  if bool_decide (code ∈ first_seen codes) then first_seen codes
  else first_seen codes ++ [code].
Proof. unfold first_seen. now rewrite foldl_app. Qed.

(** The loop keeps the keys in the order of [Object.entries]: the array
    indices in ascending order, then the named keys in the order of their
    first record. *)
Lemma tally_order (observations seen : list Observation) (sf : SpeciesFrequency)
    (indices : list string) :
  map fst sf = indices ++ first_seen (List.filter Js.named (map speciesCode seen)) ->
  Forall (fun key => is_Some (Js.array_index key)) indices ->
  StronglySorted Js.index_le indices ->
  exists indices',
    map fst (foldl Js.tally sf observations) =
      indices' ++
      first_seen (List.filter Js.named (map speciesCode (seen ++ observations))) /\
    Forall (fun key => is_Some (Js.array_index key)) indices' /\
    StronglySorted Js.index_le indices'.
Proof.
  revert seen sf indices.
  induction observations as [| obs rest IH]; intros seen sf indices Hkeys Hidx Hsorted.
  - exists indices. rewrite app_nil_r. auto.
  - cbn [foldl]. replace (seen ++ obs :: rest) with ((seen ++ [obs]) ++ rest)
      by (now rewrite <- app_assoc).
    set (names := first_seen (List.filter Js.named (map speciesCode seen))) in *.
    assert (Hnames : Forall (fun key => Js.array_index key = None) names).
    { assert (Hgen : forall codes acc,
                 Forall (fun key => Js.array_index key = None) acc ->
                 Forall (fun key => Js.array_index key = None)
                   (foldl (fun seen code =>
                             if bool_decide (code ∈ seen) then seen else seen ++ [code])
                          acc (List.filter Js.named codes))).
      { induction codes as [| c codes IHc]; intros acc Hacc; [exact Hacc |].
        cbn [List.filter]. destruct (Js.named c) eqn:Ec; [| now apply IHc].
        cbn [foldl]. apply IHc. case_bool_decide; [assumption |].
        apply Forall_app. split; [assumption |]. constructor; [| constructor].
        unfold Js.named in Ec. now destruct (Js.array_index c). }
      apply Hgen. constructor. }
    assert (Hstep : first_seen (List.filter Js.named (map speciesCode (seen ++ [obs]))) =
                    if Js.named (speciesCode obs)
                    then if bool_decide (speciesCode obs ∈ names) then names
                         else names ++ [speciesCode obs]
                    else names).
    { rewrite map_app, List.filter_app. cbn [map List.filter].
      destruct (Js.named (speciesCode obs)); [apply first_seen_snoc |].
      now rewrite app_nil_r. }
    rewrite tally_step.
    destruct (obj_get sf (speciesCode obs)) as [d |] eqn:Eget.
    + apply (IH _ _ indices); [| assumption | assumption].
      rewrite own_update_keys, Hkeys, Hstep.
      destruct (Js.named (speciesCode obs)) eqn:Enamed; [| reflexivity].
      rewrite bool_decide_eq_true_2; [reflexivity |].
      assert (Hin : speciesCode obs ∈ map fst sf).
      { destruct (decide (speciesCode obs ∈ map fst sf)) as [| Hnin]; [assumption |].
        apply obj_get_None_keys in Hnin. congruence. }
      rewrite Hkeys in Hin. apply elem_of_app in Hin as [Hin | Hin]; [| exact Hin].
      rewrite Forall_forall in Hidx. destruct (Hidx _ Hin) as [i Hi].
      unfold Js.named in Enamed. now rewrite Hi in Enamed.
    + destruct (Js.inherited (speciesCode obs)) eqn:Einh.
      * apply (IH _ _ indices); [| assumption | assumption].
        rewrite Hkeys, Hstep. unfold Js.named.
        now rewrite (inherited_not_index _ Einh), Einh.
      * destruct (Js.array_index (speciesCode obs)) as [i |] eqn:Eidx.
        -- destruct (own_add_index sf (speciesCode obs)
                       {| commonName := comName obs; scientificName := sciName obs;
                          count := 1; lastSeen := obsDt obs |}
                       i indices names Eidx Hkeys Hidx Hnames Hsorted)
             as (indices' & Hkeys' & Hperm & Hs').
           apply (IH _ _ indices'); [| | assumption].
           ++ rewrite Hkeys', Hstep. unfold Js.named. now rewrite Eidx.
           ++ eapply Permutation_Forall; [symmetry; exact Hperm |].
              constructor; [now exists i | assumption].
        -- apply (IH _ _ indices); [| assumption | assumption].
           rewrite own_add_last by assumption.
           rewrite map_app, Hkeys, Hstep. cbn [map fst]. unfold Js.named.
           rewrite Eidx, Einh. cbn [negb].
           rewrite bool_decide_eq_false_2; [now rewrite app_assoc |].
           intros Hin. apply obj_get_None_keys in Eget. apply Eget.
           rewrite Hkeys. apply elem_of_app. now right.
Qed.

Lemma find_snoc {A : Type} (f : A -> bool) (l : list A) (x : A) :
  find f (l ++ [x]) =
  match find f l with
  | Some y => Some y
  | None => if f x then Some x else None
  end.
Proof.
  induction l as [| y l IH]; cbn; [reflexivity |].
  now destruct (f y).
Qed.

(** The names and the date of an entry are those of the first record
    bearing its code. *)
Lemma tally_first_record_js (observations seen : list Observation)
    (sf : SpeciesFrequency) :
  (forall code,
      match obj_get sf code with
      | Some d =>
          exists obs, find (fun obs => String.eqb (speciesCode obs) code) seen = Some obs /\
                      commonName d = comName obs /\
                      scientificName d = sciName obs /\
                      lastSeen d = obsDt obs
      | None => Js.inherited code = true \/
                find (fun obs => String.eqb (speciesCode obs) code) seen = None
      end) ->
  forall code,
    match obj_get (foldl Js.tally sf observations) code with
    | Some d =>
        exists obs, find (fun obs => String.eqb (speciesCode obs) code)
                         (seen ++ observations) = Some obs /\
                    commonName d = comName obs /\
                    scientificName d = sciName obs /\
                    lastSeen d = obsDt obs
    | None => Js.inherited code = true \/
              find (fun obs => String.eqb (speciesCode obs) code)
                   (seen ++ observations) = None
    end.
Proof.
  revert seen sf. induction observations as [| o rest IH]; intros seen sf Hinv code.
  - rewrite app_nil_r. apply Hinv.
  - cbn [foldl]. replace (seen ++ o :: rest) with ((seen ++ [o]) ++ rest)
      by (now rewrite <- app_assoc).
    apply IH. clear code. intros code.
    rewrite tally_entry, find_snoc. specialize (Hinv code).
    destruct (String.eqb (speciesCode o) code) eqn:E.
    + destruct (obj_get sf code) as [d |].
      * destruct Hinv as (obs & -> & Hnames). now exists obs.
      * destruct (Js.inherited code) eqn:Einh; [now left |].
        destruct Hinv as [Hinv | Hinv]; [discriminate |].
        rewrite Hinv. exists o. auto.
    + destruct (obj_get sf code) as [d |].
      * destruct Hinv as (obs & -> & Hnames). now exists obs.
      * destruct Hinv as [Hinv | Hinv]; [now left | right; now rewrite Hinv].
Qed.

(** ** Summaries built by the tally *)

Lemma occurrences_elem (code : string) (observations : list Observation) :
  occurrences code observations <> 0 <-> code ∈ map speciesCode observations.
Proof.
  unfold occurrences. induction observations as [| obs rest IH]; cbn.
  - split; [congruence | intros H; inversion H].
  - rewrite elem_of_cons, <- IH.
    destruct (String.eqb (speciesCode obs) code) eqn:E; cbn.
    + apply String.eqb_eq in E. split; [intros _; now left | lia].
    + apply String.eqb_neq in E. split; [intros H; now right |].
      intros [H | H]; [congruence | exact H].
Qed.

Lemma fetch_keys_js (id : string) (observations : list Observation) (code : string) :
  code ∈ map fst (species (Js.fetchHotspotSpecies id (Some observations))) <->
  Js.inherited code = false /\ code ∈ map speciesCode observations.
Proof.
  destruct (fetch_invariant_js id observations) as (_ & Hcnt & Hpos & _).
  specialize (Hcnt code). specialize (Hpos code). unfold count_of in Hcnt.
  rewrite <- occurrences_elem.
  destruct (obj_get (species (Js.fetchHotspotSpecies id (Some observations))) code)
    as [d |] eqn:Eget.
  - specialize (Hpos d eq_refl).
    assert (Hin : code ∈ map fst (species (Js.fetchHotspotSpecies id (Some observations)))).
    { destruct (decide (code ∈ map fst (species
                  (Js.fetchHotspotSpecies id (Some observations))))) as [| Hnin];
        [assumption |].
      apply obj_get_None_keys in Hnin. congruence. }
    split; [intros _ | intros _; exact Hin].
    destruct (Js.inherited code); [lia |]. split; [reflexivity | lia].
  - apply obj_get_None_keys in Eget. split; [intros H; contradiction |].
    intros [Hinh Hocc]. rewrite Hinh in Hcnt. lia.
Qed.

Lemma fetch_counted_js (id : string) (response : option (list Observation)) :
  counted (Js.fetchHotspotSpecies id response).
Proof.
  destruct response as [observations |]; [| constructor].
  destruct (fetch_invariant_js id observations) as (Hnd & _ & Hpos & _).
  apply Forall_forall. intros [code d] Hin.
  apply (Hpos code). now apply obj_get_elem.
Qed.





(** X3: the species table [fetchHotspotSpecies] builds lists its codes as
    [Object.entries] does: first the codes that are array indices, in
    ascending order, then the other codes in the order of their first
    record; a code naming an inherited property is not listed.  With codes
    of neither kind the order is that of the first records.  The common
    name, the scientific name and the [lastSeen] date of an entry are those
    of the first record of the response bearing its code, whatever later
    records say. *)
Theorem species_table_first_record (id : string) (observations : list Observation) :
  let hd := Js.fetchHotspotSpecies id (Some observations) in
  let codes := map speciesCode observations in
  (exists indices,
     map fst (species hd) = indices ++ first_seen (List.filter Js.named codes) /\
     Forall (fun key => is_Some (Js.array_index key)) indices /\
     StronglySorted Js.index_le indices /\
     (forall key, key ∈ indices <-> is_Some (Js.array_index key) /\ key ∈ codes)) /\
  (Forall (fun code => Js.named code = true) codes ->
   map fst (species hd) = first_seen codes) /\
  (forall code d, (code, d) ∈ species hd ->
     exists obs,
       find (fun obs => String.eqb (speciesCode obs) code) observations = Some obs /\
       commonName d = comName obs /\
       scientificName d = sciName obs /\
       lastSeen d = obsDt obs).
Proof.
  cbv zeta.
  destruct (tally_order observations [] [] []) as (indices & Hkeys & Hidx & Hsorted);
    [reflexivity | constructor | constructor |].
  cbn [app] in Hkeys.
  change (foldl Js.tally [] observations)
    with (species (Js.fetchHotspotSpecies id (Some observations))) in Hkeys.
  set (names := first_seen (List.filter Js.named (map speciesCode observations))) in *.
  assert (Hnames : forall key, key ∈ names -> Js.array_index key = None).
  { intros key Hkey.
    assert (Hin : key ∈ map fst (species (Js.fetchHotspotSpecies id (Some observations)))).
    { rewrite Hkeys. apply elem_of_app. now right. }
    destruct (Js.array_index key) as [i |] eqn:Ei; [| reflexivity].
    exfalso.
    destruct (fetch_invariant_js id observations) as (Hnd & _).
    rewrite Hkeys in Hnd. apply NoDup_app in Hnd as (_ & Hdisj & Hndn).
    assert (Hgen : forall codes acc,
               (forall k, k ∈ acc -> Js.named k = true) ->
               forall k, k ∈ foldl (fun seen code =>
                                      if bool_decide (code ∈ seen) then seen
                                      else seen ++ [code])
                                   acc (List.filter Js.named codes) ->
                         Js.named k = true).
    { induction codes as [| c codes IHc]; intros acc Hacc; [exact Hacc |].
      cbn [List.filter]. destruct (Js.named c) eqn:Ec; [| now apply IHc].
      cbn [foldl]. apply IHc. case_bool_decide; [assumption |].
      intros k Hk. apply elem_of_app in Hk as [Hk | Hk]; [now apply Hacc |].
      apply list_elem_of_singleton in Hk as ->. exact Ec. }
    assert (Hn : Js.named key = true).
    { apply (Hgen (map speciesCode observations) []); [| exact Hkey].
      intros k Hk. inversion Hk. }
    unfold Js.named in Hn. now rewrite Ei in Hn. }
  split; [| split].
  - exists indices. split; [exact Hkeys |]. split; [exact Hidx |].
    split; [exact Hsorted |].
    intros key. split.
    + intros Hin. rewrite Forall_forall in Hidx. split; [now apply Hidx |].
      apply (fetch_keys_js id observations key).
      rewrite Hkeys. apply elem_of_app. now left.
    + intros [[i Hi] Hcode].
      assert (Hin : key ∈ map fst (species (Js.fetchHotspotSpecies id (Some observations)))).
      { apply fetch_keys_js. split; [| exact Hcode].
        destruct (Js.inherited key) eqn:Einh; [| reflexivity].
        apply inherited_not_index in Einh. congruence. }
      rewrite Hkeys in Hin. apply elem_of_app in Hin as [Hin | Hin]; [exact Hin |].
      apply Hnames in Hin. congruence.
  - intros Hall.
    assert (Hfilter : List.filter Js.named (map speciesCode observations) =
                      map speciesCode observations).
    { apply filter_all. intros x Hx. rewrite Forall_forall in Hall. now apply Hall. }
    destruct indices as [| key indices].
    + rewrite Hkeys. unfold names. now rewrite Hfilter.
    + exfalso. apply Forall_cons in Hidx as [[i Hi] _].
      assert (Hin : key ∈ map fst (species (Js.fetchHotspotSpecies id (Some observations)))).
      { rewrite Hkeys. now left. }
      apply fetch_keys_js in Hin as [_ Hin].
      rewrite Forall_forall in Hall. specialize (Hall key Hin).
      unfold Js.named in Hall. now rewrite Hi in Hall.
  - intros code d Hin.
    destruct (fetch_invariant_js id observations) as (Hnd & _).
    apply obj_get_elem in Hin; [| exact Hnd].
    pose proof (tally_first_record_js observations [] []
                  (fun _ => or_intror eq_refl) code) as H.
    cbn [app] in H.
    change (foldl Js.tally [] observations)
      with (species (Js.fetchHotspotSpecies id (Some observations))) in H.
    now rewrite Hin in H.
Qed.

(** ** The two ends of the expected value *)






(** ** Numbers that are not finite *)

Lemma SFcompare_refl_finite (s : bool) (m : positive) (e : Z) :
  SFcompare (S754_finite s m e) (S754_finite s m e) = Some Eq.
Proof.
  cbn. destruct s; rewrite Z.compare_refl, ?Pos.compare_refl; reflexivity.
Qed.

Lemma not_finite_cases (x : float) :
  PrimFloat.is_finite x = false -> x = nan \/ x = infinity \/ x = neg_infinity.
Proof.
  intros H. rewrite <- (SF2Prim_Prim2SF x).
  unfold PrimFloat.is_finite, PrimFloat.is_nan, PrimFloat.is_infinity in H.
  rewrite !eqb_spec, abs_spec in H.
  destruct (Prim2SF x) as [s | s | | s m e].
  - destruct s; discriminate H.
  - destruct s; [right; right | right; left]; reflexivity.
  - now left.
  - exfalso. unfold SFeqb in H. rewrite SFcompare_refl_finite in H.
    cbn in H. discriminate H.
Qed.

Lemma nan_add (y : float) : (nan + y)%float = nan.
Proof.
  apply Prim2SF_inj. rewrite add_spec.
  now destruct (Prim2SF y).
Qed.

Lemma sub_not_finite (y x : float) :
  PrimFloat.is_finite y = false -> PrimFloat.is_finite (y - x)%float = false.
Proof.
  intros H.
  assert (Hs : Prim2SF (y - x)%float = S754_nan \/
               exists s, Prim2SF (y - x)%float = S754_infinity s).
  { rewrite sub_spec.
    destruct (not_finite_cases y H) as [-> | [-> | ->]].
    - left. now destruct (Prim2SF x).
    - change (Prim2SF infinity) with (S754_infinity false).
      destruct (Prim2SF x) as [s | s | | s m e]; cbn;
        try (right; eexists; reflexivity); try (now left).
      destruct s; cbn; [right; eexists; reflexivity | now left].
    - change (Prim2SF neg_infinity) with (S754_infinity true).
      destruct (Prim2SF x) as [s | s | | s m e]; cbn;
        try (right; eexists; reflexivity); try (now left).
      destruct s; cbn; [now left | right; eexists; reflexivity]. }
  rewrite <- (SF2Prim_Prim2SF (y - x)%float).
  destruct Hs as [-> | [s ->]]; [reflexivity | now destruct s].
Qed.

(** The distance to a place whose latitude is [NaN] or infinite is [NaN],
    whatever the library: the sine of the half difference is. *)
Lemma calculateDistance_not_finite (M : Js.MathLibrary) (lat1 lon1 lat2 lon2 : float) :
  PrimFloat.is_finite lat2 = false ->
  Js.calculateDistance M lat1 lon1 lat2 lon2 = nan.
Proof.
  intros H. apply (sub_not_finite lat2 lat1) in H.
  unfold Js.calculateDistance. cbv zeta.
  assert (Hsin : Js.Math_sin M (Js.toRad (lat2 - lat1) / 2)%float = nan).
  { apply Js.Math_sin_not_finite.
    destruct (not_finite_cases _ H) as [-> | [-> | ->]]; reflexivity. }
  rewrite Hsin. change (nan * nan)%float with nan. rewrite nan_add.
  change (PrimFloat.sqrt nan) with nan. rewrite Js.Math_atan2_NaN. reflexivity.
Qed.

(** ** The callback of [hotspots.map], on binary64 numbers *)

Lemma js_recommend_own (M : Js.MathLibrary) (region : Js.Region)
    (sd : gmap string HotspotData) (ll : gset string) (h : Js.Hotspot)
    (hd : HotspotData) :
  sd !! Js.locId h = Some hd ->
  Js.recommend M region sd ll h =
  Js.Returned (Some
    {| Js.hotspot := h;
       Js.newSpeciesCount := length (newSpeciesOf ll hd);
       Js.expectedNewSpecies :=
         Js.toFixed (Js.expectedNewSpeciesOf hd (newSpeciesOf ll hd)) 1;
       Js.distance := Js.toFixed (Js.distanceOf M region h) 1;
       Js.score :=
         Js.toFixed (Js.scoreOf (Js.distanceOf M region h)
                       (Js.expectedNewSpeciesOf hd (newSpeciesOf ll hd))) 2;
       Js.topNewSpecies :=
         map (Js.topSpeciesOf hd)
             (take 5 (Array_sort byCountDesc (newSpeciesOf ll hd))) |}).
Proof. intros H. unfold Js.recommend, Js.read_summary. now rewrite H. Qed.



Lemma js_expected_sum (hd : HotspotData) (entries : list (string * SpeciesInfo)) :
  Js.expectedNewSpeciesOf hd entries =
  foldl (fun sum entry =>
           (sum + Js.num_of_nat (count entry.2) /
                  Js.num_of_nat (totalChecklists hd))%float)
        0%float entries.
Proof. reflexivity. Qed.








(** ** Score and distance *)

(** C3, counterexample.  A hotspot whose latitude is not finite (the JSON
    number 1e999 is read as [Infinity]) lies at distance [NaN], which is not
    0; the score is then the undivided expected value, shown as 0.30, and
    not [expectedNewSpecies / sqrt(distance)], which is [NaN]. *)
Lemma score_at_distance_NaN :
  Js.distanceOf Js.series_library Js.CHICAGO_WEST (Js.off_the_map "L1") = nan /\
  (nan =? 0)%float = false /\
  Js.recommend Js.series_library Js.CHICAGO_WEST partition_data {[ "norcad" ]}
    (Js.off_the_map "L1") =
  Js.Returned (Some
    {| Js.hotspot := Js.off_the_map "L1";
       Js.newSpeciesCount := 1;
       Js.expectedNewSpecies := Js.Fixed false 1 3;
       Js.distance := Js.StrNaN;
       Js.score := Js.Fixed false 2 30;
       Js.topNewSpecies :=
         [ {| Js.name := "Blue Jay"; Js.probability := Js.Fixed false 0 30 |} ] |}) /\
  Js.toFixed (Js.num_of_nat 3 / Js.num_of_nat 10 / PrimFloat.sqrt nan)%float 2 =
    Js.StrNaN.
Proof. repeat split; vm_compute; reflexivity. Qed.

(** C3, amended: for every hotspot with a summary, with [distance] the
    result of [calculateDistance] from the centre of the region to the
    hotspot, the score is [expectedNewSpecies / sqrt(distance)] when
    [distance > 0] and the undivided [expectedNewSpecies] otherwise, that
    is when the distance is 0 or [NaN]; the distance is [NaN] whenever the
    latitude of the hotspot is not finite.  The recommendation stores the
    score as [toFixed(2)] and the distance as [toFixed(1)], both of the
    binary64 results.  Expected 6 at distance 4 scores 3.00; expected 0.3
    at the centre scores 0.30. *)
Theorem score_formula :
  (forall (M : Js.MathLibrary) (region : Js.Region) (sd : gmap string HotspotData)
          (ll : gset string) (h : Js.Hotspot) (hd : HotspotData),
      sd !! Js.locId h = Some hd ->
      let d := Js.calculateDistance M (Js.centerLat region) (Js.centerLng region)
                                    (Js.lat h) (Js.lng h) in
      let e := foldl (fun sum entry =>
                        (sum + Js.num_of_nat (count entry.2) /
                               Js.num_of_nat (totalChecklists hd))%float)
                     0%float (newSpeciesOf ll hd) in
      exists r,
        Js.recommend M region sd ll h = Js.Returned (Some r) /\
        Js.hotspot r = h /\
        Js.expectedNewSpecies r = Js.toFixed e 1 /\
        Js.distance r = Js.toFixed d 1 /\
        ((0 <? d)%float = true -> Js.score r = Js.toFixed (e / PrimFloat.sqrt d)%float 2) /\
        ((0 <? d)%float = false -> Js.score r = Js.toFixed e 2) /\
        (d = 0%float -> Js.score r = Js.toFixed e 2 /\ Js.distance r = Js.Fixed false 1 0) /\
        (d = nan -> Js.score r = Js.toFixed e 2 /\ Js.distance r = Js.StrNaN) /\
        (PrimFloat.is_finite (Js.lat h) = false -> d = nan)) /\
  (Js.scoreOf 4 6 = 3%float /\ Js.toFixed (Js.scoreOf 4 6) 2 = Js.Fixed false 2 300) /\
  (exists r,
      Js.recommend Js.series_library Js.CHICAGO_WEST partition_data {[ "norcad" ]}
        (Js.at_center "L1") = Js.Returned (Some r) /\
      Js.distance r = Js.Fixed false 1 0 /\
      Js.expectedNewSpecies r = Js.Fixed false 1 3 /\
      Js.score r = Js.Fixed false 2 30).
Proof.
  split; [| split].
  - intros M region sd ll h hd Hsd d e.
    rewrite (js_recommend_own M region sd ll h hd Hsd).
    eexists. split; [reflexivity |].
    cbn [Js.hotspot Js.expectedNewSpecies Js.distance Js.score].
    change (Js.distanceOf M region h) with d.
    change (Js.expectedNewSpeciesOf hd (newSpeciesOf ll hd)) with e.
    split; [reflexivity |]. split; [reflexivity |]. split; [reflexivity |].
    split; [| split; [| split; [| split]]].
    + intros Hd. unfold Js.scoreOf. now rewrite Hd.
    + intros Hd. unfold Js.scoreOf. now rewrite Hd.
    + intros Hd. rewrite Hd. split; reflexivity.
    + intros Hd. rewrite Hd. split; reflexivity.
    + intros Hlat. now apply calculateDistance_not_finite.
  - split; vm_compute; reflexivity.
  - eexists. split; [vm_compute; reflexivity |]. repeat split.
Qed.

Lemma score_formula_witness :
  exists r,
    Js.recommend Js.series_library Js.CHICAGO_WEST partition_data {[ "norcad" ]}
      (Js.fixture_place "L1") = Js.Returned (Some r) /\
    Js.distance r = Js.Fixed false 1 94 /\
    Js.score r = Js.Fixed false 2 10.
Proof.
  destruct (proj1 score_formula Js.series_library Js.CHICAGO_WEST partition_data
              {[ "norcad" ]} (Js.fixture_place "L1") _ eq_refl)
    as (r & Hr & _ & _ & Hdist & Hpos & _).
  exists r. split; [exact Hr |]. split.
  - rewrite Hdist. vm_compute. reflexivity.
  - rewrite Hpos by (vm_compute; reflexivity). vm_compute. reflexivity.
Defined.

(** ** Rounding by [toFixed] *)

Lemma powerRZ_2_IZR (k : Z) : (0 <= k)%Z -> powerRZ 2 k = IZR (2 ^ k).
Proof.
  intros Hk. destruct k as [| p | p]; [reflexivity | | lia].
  symmetry. apply Zpower_pos_powerRZ.
Qed.

Lemma round_half_up_bounds (m e : Z) :
  (0 <= m)%Z ->
  (0 <= Js.round_half_up m e)%Z /\
  (IZR (Js.round_half_up m e) - / 2 <= IZR m * powerRZ 2 e <
   IZR (Js.round_half_up m e) + / 2)%R.
Proof.
  intros Hm. unfold Js.round_half_up.
  destruct (Z.leb_spec 0 e) as [He | He].
  - split; [apply Z.mul_nonneg_nonneg; [lia | apply Z.pow_nonneg; lia] |].
    rewrite mult_IZR, powerRZ_2_IZR by assumption. lra.
  - assert (Hk : (0 < 2 ^ (- e))%Z) by (apply Z.pow_pos_nonneg; lia).
    assert (Hq : (2 ^ (1 - e) = 2 * 2 ^ (- e))%Z).
    { replace (1 - e)%Z with (Z.succ (- e)) by lia. apply Z.pow_succ_r. lia. }
    rewrite Hq.
    set (q := (2 * 2 ^ (- e))%Z).
    set (n := ((2 * m + 2 ^ (- e)) / q)%Z).
    assert (Hdiv : (2 * m + 2 ^ (- e) = q * n + (2 * m + 2 ^ (- e)) mod q)%Z).
    { apply Z.div_mod. unfold q. lia. }
    assert (Hr : (0 <= (2 * m + 2 ^ (- e)) mod q < q)%Z).
    { apply Z.mod_pos_bound. unfold q. lia. }
    set (r := ((2 * m + 2 ^ (- e)) mod q)%Z) in *.
    split; [apply Z.div_pos; unfold q; lia |].
    assert (Hpow : powerRZ 2 e = (/ IZR (2 ^ (- e)))%R).
    { rewrite <- (Z.opp_involutive e) at 1.
      now rewrite powerRZ_neg', powerRZ_2_IZR by lia. }
    rewrite Hpow.
    apply (f_equal IZR) in Hdiv. unfold q in Hdiv, Hr.
    rewrite !plus_IZR, !mult_IZR in Hdiv.
    destruct Hr as [Hr0 Hr1]. apply IZR_le in Hr0. apply IZR_lt in Hr1.
    rewrite mult_IZR in Hr1. apply IZR_lt in Hk.
    set (P := IZR (2 ^ (- e))) in *.
    assert (Hm' : (IZR m * / P = IZR n + (IZR r - P) * / (2 * P))%R).
    { replace (IZR m) with ((2 * P * IZR n + IZR r - P) / 2)%R by lra.
      field. lra. }
    rewrite Hm'.
    assert (Hinv : (0 < / (2 * P))%R) by (apply Rinv_0_lt_compat; lra).
    assert (Hone : (2 * P * / (2 * P) = 1)%R) by (apply Rinv_r; lra).
    split.
    + assert (H : (- / 2 <= (IZR r - P) * / (2 * P))%R).
      { apply (Rmult_le_reg_r (2 * P)); [lra |].
        rewrite Rmult_assoc, Rinv_l by lra. lra. }
      lra.
    + assert (H : ((IZR r - P) * / (2 * P) < / 2)%R).
      { apply (Rmult_lt_reg_r (2 * P)); [lra |].
        rewrite Rmult_assoc, Rinv_l by lra. lra. }
      lra.
Qed.

(** [x.toFixed(f)] writes the sign of [x] and the integer nearest to
    [|x| * 10^f], the larger one when two are equally near. *)
Lemma toFixed_nearest (x : float) (f : nat) (s : bool) (m : positive) (e : Z) :
  Prim2SF x = S754_finite s m e ->
  (0x1.b1ae4d6e2ef5p+69 <=? PrimFloat.abs x)%float = false ->
  exists n : N,
    Js.toFixed x f = Js.Fixed s f n /\
    (IZR (Z.of_N n) - / 2 <= Rabs (Js.value x) * 10 ^ f < IZR (Z.of_N n) + / 2)%R.
Proof.
  intros Hx Hsmall. unfold Js.toFixed, Js.value. rewrite Hx.
  change (1e21 <=? PrimFloat.abs x)%float
    with (0x1.b1ae4d6e2ef5p+69 <=? PrimFloat.abs x)%float.
  rewrite Hsmall.
  destruct (round_half_up_bounds (Z.pos m * 10 ^ Z.of_nat f) e) as [Hn Hb].
  { apply Z.mul_nonneg_nonneg; [lia | apply Z.pow_nonneg; lia]. }
  eexists. split; [reflexivity |].
  rewrite Z2N.id by assumption.
  assert (Hp : (0 < powerRZ 2 e)%R) by (apply powerRZ_lt; lra).
  assert (Hm : (0 < IZR (Z.pos m))%R) by (apply IZR_lt; lia).
  assert (Habs : Rabs ((if s then -1 else 1) * IZR (Z.pos m) * powerRZ 2 e) =
                 (IZR (Z.pos m) * powerRZ 2 e)%R).
  { pose proof (Rmult_lt_0_compat _ _ Hm Hp) as Hpos.
    destruct s.
    - rewrite Rabs_left by lra. lra.
    - rewrite Rabs_right by lra. lra. }
  rewrite Habs.
  rewrite mult_IZR, <- pow_IZR in Hb.
  replace (IZR (Z.pos m) * powerRZ 2 e * 10 ^ f)%R
    with (IZR (Z.pos m) * 10 ^ f * powerRZ 2 e)%R by ring.
  exact Hb.
Qed.

(** ** New species and top species *)

(** C4: the new species of a hotspot are the entries of its species table
    whose code is not on the life list, the other entries being the known
    ones; [newSpeciesCount] is their number and the expected value is the
    sum, taken from 0 in the order of the table, of the binary64 quotients
    [count / totalChecklists] over them; the recommendation stores it as
    [toFixed(1)].  On the sample of the specification the count is 1 and
    the expected value 0.3; the binary64 sum is what gets rounded, so that
    7 of 20 checklists (0.35, stored as 0.34999...) also show 0.3. *)
Theorem new_species_partition :
  (forall (M : Js.MathLibrary) (region : Js.Region) (sd : gmap string HotspotData)
          (ll : gset string) (h : Js.Hotspot) (hd : HotspotData),
      sd !! Js.locId h = Some hd ->
      exists r,
        Js.recommend M region sd ll h = Js.Returned (Some r) /\
        let new := newSpeciesOf ll hd in
        (forall entry, entry ∈ new <-> entry ∈ species hd /\ entry.1 ∉ ll) /\
        Permutation
          (new ++ List.filter (fun entry => bool_decide (entry.1 ∈ ll)) (species hd))
          (species hd) /\
        Js.newSpeciesCount r = length new /\
        Js.expectedNewSpecies r =
          Js.toFixed
            (foldl (fun sum entry =>
                      (sum + Js.num_of_nat (count entry.2) /
                             Js.num_of_nat (totalChecklists hd))%float)
                   0%float new) 1) /\
  (exists r,
      Js.recommend Js.series_library Js.CHICAGO_WEST partition_data {[ "norcad" ]}
        (Js.at_center "L1") = Js.Returned (Some r) /\
      newSpeciesOf {[ "norcad" ]}
        (summary "L1" [("norcad", info "Northern Cardinal" 5);
                       ("blujay", info "Blue Jay" 3)] 10) =
        [("blujay", info "Blue Jay" 3)] /\
      Js.newSpeciesCount r = 1 /\
      Js.expectedNewSpecies r = Js.Fixed false 1 3) /\
  ((0 + Js.num_of_nat 3 / Js.num_of_nat 10)%float = 0x1.3333333333333p-2%float /\
   Js.toFixed 0x1.3333333333333p-2 1 = Js.Fixed false 1 3 /\
   (0 + Js.num_of_nat 7 / Js.num_of_nat 20)%float = 0x1.6666666666666p-2%float /\
   Js.toFixed 0x1.6666666666666p-2 1 = Js.Fixed false 1 3).
Proof.
  split; [| split].
  - intros M region sd ll h hd Hsd.
    rewrite (js_recommend_own M region sd ll h hd Hsd).
    eexists. split; [reflexivity |]. cbv zeta.
    split; [intros entry; apply newSpeciesOf_spec |].
    split; [apply (filter_partition (fun entry => bool_decide (entry.1 ∈ ll))) |].
    split; reflexivity.
  - eexists. split; [vm_compute; reflexivity |]. repeat split.
  - repeat split; vm_compute; reflexivity.
Qed.

Lemma new_species_partition_witness :
  exists r,
    Js.recommend Js.series_library Js.CHICAGO_WEST close_data {[ "norcad" ]}
      (Js.fixture_place "B") = Js.Returned (Some r) /\
    Js.newSpeciesCount r = 1 /\
    Js.expectedNewSpecies r = Js.Fixed false 1 3.
Proof.
  destruct (proj1 new_species_partition Js.series_library Js.CHICAGO_WEST close_data
              {[ "norcad" ]} (Js.fixture_place "B") _ eq_refl)
    as (r & Hr & _ & _ & Hcount & Hexp).
  exists r. split; [exact Hr |]. split.
  - rewrite Hcount. reflexivity.
  - rewrite Hexp. vm_compute. reflexivity.
Defined.

Ltac sort_by_count :=
  cbn [Array_sort foldr];
  repeat (cbn [sort_insert]; rewrite ?after_byCountDesc;
          cbn [Nat.ltb Nat.leb count snd info]).

Lemma seven_species_sorted :
  Array_sort byCountDesc seven_species =
  [("norcad", info "Northern Cardinal" 7);
   ("amecro", info "American Crow" 6);
   ("mourdo", info "Mourning Dove" 5);
   ("amegfi", info "American Goldfinch" 4);
   ("amerob", info "American Robin" 3);
   ("blujay", info "Blue Jay" 2);
   ("bkcchi", info "Black-capped Chickadee" 1)].
Proof. unfold seven_species. sort_by_count. reflexivity. Qed.

(** C5: the top list of a hotspot is made from its new species sorted by
    descending count, entries with equal counts keeping the order of the
    species table, cut to the first five and mapped to the common name and
    the percentage [count / totalChecklists * 100], computed in binary64
    and rounded by [toFixed(0)] to the nearest integer, upwards when two
    are equally near: 1 of 8 shows 13, and 23 of 40, computed as
    57.49999999999999, shows 57.  Seven new species with distinct counts
    give five entries, the five largest counts in descending order. *)
Theorem top_new_species :
  (forall (M : Js.MathLibrary) (region : Js.Region) (sd : gmap string HotspotData)
          (ll : gset string) (h : Js.Hotspot) (hd : HotspotData),
      sd !! Js.locId h = Some hd ->
      exists r sorted,
        Js.recommend M region sd ll h = Js.Returned (Some r) /\
        Permutation sorted (newSpeciesOf ll hd) /\
        StronglySorted (fun a b => count b.2 <= count a.2) sorted /\
        (forall c, List.filter (fun entry => count entry.2 =? c) sorted =
                   List.filter (fun entry => count entry.2 =? c) (newSpeciesOf ll hd)) /\
        Js.topNewSpecies r =
          map (fun entry =>
                 {| Js.name := commonName entry.2;
                    Js.probability :=
                      Js.toFixed (Js.num_of_nat (count entry.2) /
                                  Js.num_of_nat (totalChecklists hd) * 100)%float 0 |})
              (take 5 sorted) /\
        length (Js.topNewSpecies r) = Nat.min 5 (Js.newSpeciesCount r)) /\
  (forall (x : float) (s : bool) (m : positive) (e : Z),
      Prim2SF x = S754_finite s m e ->
      (0x1.b1ae4d6e2ef5p+69 <=? PrimFloat.abs x)%float = false ->
      exists n : N,
        Js.toFixed x 0 = Js.Fixed s 0 n /\
        (IZR (Z.of_N n) - / 2 <= Rabs (Js.value x) < IZR (Z.of_N n) + / 2)%R) /\
  ((Js.num_of_nat 1 / Js.num_of_nat 8 * 100)%float = 0x1.9p+3%float /\
   Js.toFixed 0x1.9p+3 0 = Js.Fixed false 0 13 /\
   (Js.num_of_nat 23 / Js.num_of_nat 40 * 100)%float = 0x1.cbfffffffffffp+5%float /\
   (0x1.cbfffffffffffp+5 <? 0x1.ccp+5)%float = true /\
   Js.toFixed 0x1.cbfffffffffffp+5 0 = Js.Fixed false 0 57) /\
  (exists r,
      Js.recommend Js.series_library Js.CHICAGO_WEST seven_data ∅ (Js.at_center "L7") =
        Js.Returned (Some r) /\
      Js.newSpeciesCount r = 7 /\
      Js.topNewSpecies r =
        [ {| Js.name := "Northern Cardinal"; Js.probability := Js.Fixed false 0 25 |};
          {| Js.name := "American Crow"; Js.probability := Js.Fixed false 0 21 |};
          {| Js.name := "Mourning Dove"; Js.probability := Js.Fixed false 0 18 |};
          {| Js.name := "American Goldfinch"; Js.probability := Js.Fixed false 0 14 |};
          {| Js.name := "American Robin"; Js.probability := Js.Fixed false 0 11 |} ]).
Proof.
  split; [| split; [| split]].
  - intros M region sd ll h hd Hsd.
    rewrite (js_recommend_own M region sd ll h hd Hsd).
    eexists. exists (Array_sort byCountDesc (newSpeciesOf ll hd)).
    split; [reflexivity |].
    split; [apply Array_sort_perm |].
    split; [apply Array_sort_byCountDesc_sorted |].
    split; [intros c; apply Array_sort_byCountDesc_stable |].
    split; [reflexivity |].
    cbn [Js.topNewSpecies Js.newSpeciesCount].
    rewrite length_map, length_take, Array_sort_length. reflexivity.
  - intros x s m e Hx Hsmall.
    destruct (toFixed_nearest x 0 s m e Hx Hsmall) as (n & Hn & Hb).
    exists n. split; [exact Hn |]. now rewrite Rmult_1_r in Hb.
  - repeat split; vm_compute; reflexivity.
  - rewrite (js_recommend_own Js.series_library Js.CHICAGO_WEST seven_data ∅
               (Js.at_center "L7") (summary "L7" seven_species 28) eq_refl).
    eexists. split; [reflexivity |]. split; [reflexivity |].
    cbn [Js.topNewSpecies].
    change (newSpeciesOf ∅ (summary "L7" seven_species 28)) with seven_species.
    rewrite seven_species_sorted. vm_compute. reflexivity.
Qed.

Lemma top_new_species_witness :
  exists r sorted,
    Js.recommend Js.series_library Js.CHICAGO_WEST seven_data {[ "norcad" ]}
      (Js.fixture_place "L7") = Js.Returned (Some r) /\
    Permutation sorted (newSpeciesOf {[ "norcad" ]} (summary "L7" seven_species 28)) /\
    StronglySorted (fun a b => count b.2 <= count a.2) sorted /\
    length (Js.topNewSpecies r) = 5.
Proof.
  destruct (proj1 top_new_species Js.series_library Js.CHICAGO_WEST seven_data
              {[ "norcad" ]} (Js.fixture_place "L7") _ eq_refl)
    as (r & sorted & Hr & Hperm & Hsorted & _ & _ & Hlen).
  exists r, sorted. split; [exact Hr |]. split; [exact Hperm |].
  split; [exact Hsorted |]. rewrite Hlen.
  injection Hr as <-. reflexivity.
Defined.
End JsProperties.
